(** * Conway's Game of Life on a terminal: a model of [src/main.cpp]

    The development embeds the grid, the double buffer, the generation
    transition, the three perturbations, the renderer and the control loop
    of [main.cpp] as executable Rocq functions, and then states and proves
    the properties of the specification against them.

    Conventions.
    - A C++ [int] is a [Z]; the 32-bit two's-complement result of [+], [-]
      and [*] is written out with [wrap_int].  Division and remainder by
      zero have no result ([None]).
    - The cell array [std::unique_ptr<bool[]>] is a [list bool]; an access
      outside the allocation has no result ([None]).
    - In-place mutation through references is explicit state passing. *)

From Stdlib Require Import ZArith QArith Lia List Bool Ascii.
From stdpp Require Import base option list.

Local Open Scope Z_scope.

(** ** Machine integers *)

Module Int.

Definition MIN : Z := -2147483648.
Definition MAX : Z := 2147483647.

(** The representative of [z] in the range of a 32-bit signed [int]. *)
Definition wrap_int (z : Z) : Z := (z + 2147483648) mod 4294967296 - 2147483648.

Definition add (x y : Z) : Z := wrap_int (x + y).
Definition sub (x y : Z) : Z := wrap_int (x - y).
Definition mul (x y : Z) : Z := wrap_int (x * y).

(** [x % y]: truncated remainder, no result for a zero divisor. *)
Definition rem (x y : Z) : option Z :=
  if y =? 0 then None else Some (Z.rem x y).

(** [x / y]: truncated quotient, no result for a zero divisor. *)
Definition quot (x y : Z) : option Z :=
  if y =? 0 then None else Some (wrap_int (Z.quot x y)).

End Int.

(** The code of a character constant such as ['r']. *)
Definition chr (c : ascii) : Z := Z.of_N (N_of_ascii c).

(** ** Raw arrays *)

(** [data[i]] as an rvalue. *)
Definition load (d : list bool) (i : Z) : option bool :=
  if i <? 0 then None else d !! Z.to_nat i.

(** [data[i] = v]. *)
Definition store (d : list bool) (i : Z) (v : bool) : option (list bool) :=
  if (0 <=? i) && (i <? Z.of_nat (length d)) then Some (<[Z.to_nat i := v]> d)
  else None.

(** ** Loops *)

(** [n] iterations of [body], the counter starting at [i] and advancing by
    [step]; an iteration without result ends the run without result. *)
Fixpoint iterate {S : Type} (n : nat) (i step : Z)
    (body : Z -> S -> option S) (s : S) : option S :=
  match n with
  | O => Some s
  | Datatypes.S n' =>
      match body i s with
      | Some s' => iterate n' (i + step) step body s'
      | None => None
      end
  end.

(** [for (int i = 0; i < stop; i++) body]. *)
Definition for_lt {S : Type} (stop : Z) (body : Z -> S -> option S) (s : S)
    : option S :=
  iterate (Z.to_nat stop) 0 1 body s.

(** [for (auto i = 0; i != stop; ++i) body].  With a negative [stop] the
    counter never meets it before leaving the range of [int]. *)
Definition for_ne {S : Type} (stop : Z) (body : Z -> S -> option S) (s : S)
    : option S :=
  if stop <? 0 then None else iterate (Z.to_nat stop) 0 1 body s.

(** [for (auto y = 0; y != stop; y += 2) body]: the counter meets [stop]
    only when [stop] is even and not negative. *)
Definition for_ne_by2 {S : Type} (stop : Z) (body : Z -> S -> option S) (s : S)
    : option S :=
  if (stop <? 0) || negb (Z.even stop) then None
  else iterate (Z.to_nat (stop / 2)) 0 2 body s.

(** ** Random numbers

    [std::default_random_engine] is an implementation-defined engine and
    [std::uniform_int_distribution] an implementation-defined map from its
    output to the closed range [lo..hi]; the model takes both as an
    interface. *)
Class RandomEngine := {
  engine : Type;
  (** [std::default_random_engine()] *)
  default_random_engine : engine;
  (** [std::default_random_engine{seed}] *)
  seeded_random_engine : Z -> engine;
  (** [std::uniform_int_distribution<>(lo, hi)(e)]: the draw and the
      advanced engine *)
  uniform_int_distribution : Z -> Z -> engine -> Z * engine
}.

(** A linear congruential engine (multiplier 16807, modulus 2^31 - 1,
    default seed 1) with the draw reduced into [lo..hi]; it instantiates
    the interface where a statement is run on concrete inputs. *)
Definition lcg_next (x : Z) : Z := (16807 * x) mod 2147483647.

Definition lcg_seed (s : Z) : Z :=
  if s mod 2147483647 =? 0 then 1 else s mod 2147483647.

Definition lcg_uniform (lo hi x : Z) : Z * Z :=
  let x' := lcg_next x in (lo + x' mod (hi - lo + 1), x').

Definition lcg_engine : RandomEngine := {|
  engine := Z;
  default_random_engine := 1;
  seeded_random_engine := lcg_seed;
  uniform_int_distribution := lcg_uniform
|}.

(** ** class grid *)

Record grid := Grid { width : Z; height : Z; data : list bool }.

(** [grid(int w, int h)]: [data{new bool[width * height]}].  The array is
    default-initialised, so its cells hold whatever the allocated storage
    held: [storage k] is the content found at offset [k].  A negative
    length makes [new] throw. *)
Definition grid_new (w h : Z) (storage : nat -> bool) : option grid :=
  let n := Int.mul w h in
  if n <? 0 then None
  else Some (Grid w h (map storage (seq 0 (Z.to_nat n)))).

(** The subscript computed by [operator()]:
    [((x+width)%width) + ((y+height)%height) * width]. *)
Definition index (g : grid) (x y : Z) : option Z :=
  xm ← Int.rem (Int.add x (width g)) (width g);
  ym ← Int.rem (Int.add y (height g)) (height g);
  Some (Int.add xm (Int.mul ym (width g))).

(** [g(x, y)] read. *)
Definition cell (g : grid) (x y : Z) : option bool :=
  i ← index g x y; load (data g) i.

(** [g(x, y) = v]. *)
Definition set_cell (g : grid) (x y : Z) (v : bool) : option grid :=
  i ← index g x y;
  d ← store (data g) i v;
  Some (Grid (width g) (height g) d).

(** The upper end of [std::uniform_int_distribution<>(0,10)] in
    [big_bang]. *)
Definition big_bang_max : Z := 10.

(** [auto frequency = 3;] in the constructor of [game_of_life], the upper
    end of its distribution. *)
Definition frequency : Z := 3.

(** [draw == 0], the test both randomizations apply to a draw. *)
Definition is_zero (draw : Z) : bool := draw =? 0.

Section Grid.
Context {E : RandomEngine}.

(** [grid::big_bang] *)
Definition big_bang (g : grid) : option grid :=
  r ← for_lt (Int.mul (width g) (height g))
        (λ i (s : engine * list bool),
           c ← load (s.2) i;
           if c : bool then Some s
           else
             let draw := uniform_int_distribution 0 big_bang_max (s.1) in
             d ← store (s.2) i (is_zero (draw.1));
             Some (draw.2, d))
        (default_random_engine, data g);
  Some (Grid (width g) (height g) (r.2)).

(** [grid::invert] *)
Definition invert (g : grid) : option grid :=
  r ← for_lt (Int.mul (width g) (height g))
        (λ i (d : list bool), c ← load d i; store d i (negb c))
        (data g);
  Some (Grid (width g) (height g) r).

(** [grid::thanos] *)
Definition thanos (g : grid) : option grid :=
  r ← for_lt (Int.mul (width g) (height g))
        (λ i (s : engine * list bool),
           c ← load (s.2) i;
           if c : bool then
             let draw := uniform_int_distribution 0 1 (s.1) in
             d ← store (s.2) i (negb (draw.1 =? 0));
             Some (draw.2, d)
           else Some s)
        (default_random_engine, data g);
  Some (Grid (width g) (height g) (r.2)).

End Grid.

(** ** class double_buffered_grid *)

Record double_buffered_grid := DoubleBuffer { first : bool; a : grid; b : grid }.

(** [double_buffered_grid(int width, int height)]; [first = true]. *)
Definition double_buffered_grid_new (w h : Z) (storage_a storage_b : nat -> bool)
    : option double_buffered_grid :=
  ga ← grid_new w h storage_a;
  gb ← grid_new w h storage_b;
  Some (DoubleBuffer true ga gb).

Definition front (d : double_buffered_grid) : grid :=
  if first d then a d else b d.

Definition back (d : double_buffered_grid) : grid :=
  if first d then b d else a d.

Definition swap (d : double_buffered_grid) : double_buffered_grid :=
  DoubleBuffer (negb (first d)) (a d) (b d).

(** Writing through the reference returned by [front()]. *)
Definition set_front (d : double_buffered_grid) (g : grid) : double_buffered_grid :=
  if first d then DoubleBuffer (first d) g (b d) else DoubleBuffer (first d) (a d) g.

(** Writing through the reference returned by [back()]. *)
Definition set_back (d : double_buffered_grid) (g : grid) : double_buffered_grid :=
  if first d then DoubleBuffer (first d) (a d) g else DoubleBuffer (first d) g (b d).

(** ** next_generation *)

(** A [bool] used as a summand. *)
Definition bool_to_int (c : bool) : Z := if c then 1 else 0.

(** [guard && in(x, y)]: the cell is read only when the guard holds. *)
Definition and_cell (guard : bool) (g : grid) (x y : Z) : option bool :=
  if guard then cell g x y else Some false.

(** The value of [neighbours] in the loop body at [(x, y)]. *)
Definition neighbours (i : grid) (wrap : bool) (x y : Z) : option Z :=
  let left := wrap || negb (x =? 0) in
  let up := wrap || negb (y =? 0) in
  let right := wrap || negb (x =? Int.sub (width i) 1) in
  let down := wrap || negb (y =? Int.sub (height i) 1) in
  n1 ← and_cell (left && up) i (Int.sub x 1) (Int.sub y 1);
  n2 ← and_cell left i (Int.sub x 1) y;
  n3 ← and_cell (left && down) i (Int.sub x 1) (Int.add y 1);
  n4 ← and_cell up i x (Int.sub y 1);
  n5 ← and_cell down i x (Int.add y 1);
  n6 ← and_cell (right && up) i (Int.add x 1) (Int.sub y 1);
  n7 ← and_cell right i (Int.add x 1) y;
  n8 ← and_cell (right && down) i (Int.add x 1) (Int.add y 1);
  Some (bool_to_int n1 + bool_to_int n2 + bool_to_int n3 + bool_to_int n4 +
        bool_to_int n5 + bool_to_int n6 + bool_to_int n7 + bool_to_int n8).

(** [neighbours == 3 || (in(x, y) && neighbours == 2)] *)
Definition next_state (i : grid) (n x y : Z) : option bool :=
  if n =? 3 then Some true
  else c ← cell i x y; Some (c && (n =? 2)).

(** The body of the inner loop: one cell of [out] is assigned. *)
Definition next_cell (i : grid) (wrap : bool) (y x : Z) (out : grid) : option grid :=
  n ← neighbours i wrap x y;
  v ← next_state i n x y;
  set_cell out x y v.

(** [next_generation(in, out, wrap)]; [in] and [out] are two objects, the
    result is [out] after the call.  A failed [assert] has no result. *)
Definition next_generation (i out : grid) (wrap : bool) : option grid :=
  if (width i =? width out) && (height i =? height out) then
    for_ne (height i) (λ y o, for_ne (width i) (next_cell i wrap y) o) out
  else None.

(** ** class game_of_life *)

Record game_of_life := Game { buffer : double_buffered_grid }.

Section Game.
Context {E : RandomEngine}.

(** [game_of_life(int width, int height)]: [seed] is the clock reading. *)
Definition game_of_life_new (w h seed : Z) (storage_a storage_b : nat -> bool)
    : option game_of_life :=
  buf ← double_buffered_grid_new w h storage_a storage_b;
  r ← for_ne (Int.mul w h)
        (λ i (s : engine * grid),
           let draw := uniform_int_distribution 0 frequency (s.1) in
           x ← Int.rem i w;
           y ← Int.quot i w;
           g ← set_cell (s.2) x y (is_zero (draw.1));
           Some (draw.2, g))
        (seeded_random_engine seed, back buf);
  Some (Game (swap (set_back buf (r.2)))).

(** [game_of_life::tick] *)
Definition tick (wrap : bool) (g : game_of_life) : option game_of_life :=
  out ← next_generation (front (buffer g)) (back (buffer g)) wrap;
  Some (Game (swap (set_back (buffer g) out))).

(** [game_of_life::big_bang] *)
Definition game_big_bang (g : game_of_life) : option game_of_life :=
  f ← big_bang (front (buffer g)); Some (Game (set_front (buffer g) f)).

(** [game_of_life::invert] *)
Definition game_invert (g : game_of_life) : option game_of_life :=
  f ← invert (front (buffer g)); Some (Game (set_front (buffer g) f)).

(** [game_of_life::thanos] *)
Definition game_thanos (g : game_of_life) : option game_of_life :=
  f ← thanos (front (buffer g)); Some (Game (set_front (buffer g) f)).

End Game.

(** The four strings written by [render]. *)
Inductive glyph := Blank | Upper | Lower | Full.

(** [top ? (bottom ? full : upper) : (bottom ? lower : " ")] *)
Definition glyph_of (top bottom : bool) : glyph :=
  if top then (if bottom then Full else Upper)
  else (if bottom then Lower else Blank).

(** [game_of_life::render]: the rows of glyphs written to the screen, row
    [y / 2] of the terminal for the pair of grid rows [y], [y + 1]. *)
Definition render (g : game_of_life) : option (list (list glyph)) :=
  let gr := front (buffer g) in
  m ← Int.rem (height gr) 2;
  if negb (m =? 0) then None
  else
    for_ne_by2 (height gr)
      (λ y rows,
         row ← for_ne (width gr)
                 (λ x line,
                    top ← cell gr x y;
                    bottom ← cell gr x (Int.add y 1);
                    Some (line ++ [glyph_of top bottom]))
                 [];
         Some (rows ++ [row]))
      [].

(** ** new_game *)

(** What [std::getenv] followed by [std::stoi] gives for a variable: it is
    not set, it does not parse (an exception leaves [new_game]), or it has
    an [int] value. *)
Inductive env_var := Unset | Malformed | Value (v : Z).

(** What [new_game] reads: the size of [stdscr] from [getmaxyx] and the two
    variables [GOL_WIDTH] and [GOL_HEIGHT]. *)
Record environment := Environment {
  columns : Z;
  lines : Z;
  GOL_WIDTH : env_var;
  GOL_HEIGHT : env_var
}.

(** [if (v_env) { v = std::stoi(v_env); }] *)
Definition override (v : env_var) (current : Z) : option Z :=
  match v with
  | Unset => Some current
  | Malformed => None
  | Value z => Some z
  end.

(** The two arguments [new_game] passes to the constructor of
    [game_of_life]: [width] and [height * 2]. *)
Definition new_game_size (env : environment) : option (Z * Z) :=
  w ← override (GOL_WIDTH env) (columns env);
  h ← override (GOL_HEIGHT env) (lines env);
  Some (w, Int.mul h 2).

Section NewGame.
Context {E : RandomEngine}.

Definition new_game (env : environment) (seed : Z)
    (storage_a storage_b : nat -> bool) : option game_of_life :=
  size ← new_game_size env;
  game_of_life_new (size.1) (size.2) seed storage_a storage_b.

End NewGame.

(** ** main: the control loop *)

Definition min_tick_ms : Z := 8.
Definition max_tick_ms : Z := 1024.

(** [KEY_RESIZE] of [curses.h], octal 0632. *)
Definition KEY_RESIZE : Z := 410.

(** The locals of [main] that steer the loop. *)
Record control := Control { tick_ms : Z; running : bool; wrap : bool }.

(** The calls the loop body makes on the terminal and on the game. *)
Inductive call :=
| NewGame
| Render
| SetTimeout (ms : Z)
| BigBang
| Tick (w : bool)
| Invert
| Thanos.

(** One pass through the body of [while (true)], given the value drawn for
    [random_selector] and the key returned by [getch]: the locals
    afterwards, the calls made in order, and whether [break] was reached. *)
Definition iteration (key random_selector : Z) (c : control)
    : control * list call * bool :=
  let calls0 :=
    if (key =? KEY_RESIZE) || (key =? chr "r") then [NewGame; Render] else [] in
  let slower := (key =? chr "-") && (tick_ms c <? max_tick_ms) in
  let tick1 := if slower then Int.mul (tick_ms c) 2 else tick_ms c in
  let calls1 := if slower then [SetTimeout tick1] else [] in
  let faster := (key =? chr "+") && (tick1 >? min_tick_ms) in
  let tick2 := if faster then Z.quot tick1 2 else tick1 in
  let calls2 := if faster then [SetTimeout tick2] else [] in
  let wrap' := if key =? chr "w" then negb (wrap c) else wrap c in
  let running' :=
    if (key =? chr "p") || (key =? chr " ") then negb (running c)
    else running c in
  let calls3 :=
    if (key =? chr "b") || (running' && (random_selector =? 0))
    then [BigBang; Tick wrap'; Render] else [] in
  let calls4 :=
    if (key =? chr "i") || (running' && (random_selector =? 1))
    then [Invert; Render] else [] in
  let calls5 :=
    if (key =? chr "t") || (running' && (random_selector =? 2))
    then [Thanos; Render] else [] in
  let calls6 :=
    if running' || (key =? chr "s") then [Tick wrap'; Render] else [] in
  (Control tick2 running' wrap',
   calls0 ++ calls1 ++ calls2 ++ calls3 ++ calls4 ++ calls5 ++ calls6,
   key =? chr "q").

(** The locals of [main] on entry to the loop. *)
Definition initial_control : control := Control min_tick_ms true true.

(** What one pass of the loop takes from outside: the key, and what a call
    of [new_game] would see (environment, clock, fresh storage). *)
Record input := Input {
  key : Z;
  env : environment;
  clock : Z;
  storage_a : nat -> bool;
  storage_b : nat -> bool
}.

Section Main.
Context {E : RandomEngine}.

(** Everything [main] holds while it loops: the locals, the generator
    bound to [random_int_generator], the game, and what the terminal was
    last given. *)
Record world := World {
  ctl : control;
  generator : engine;
  game : game_of_life;
  screen : list (list glyph);
  timeout_ms : Z
}.

(** The effect of one call. *)
Definition perform (i : input) (c : call) (w : world) : option world :=
  match c with
  | NewGame =>
      g ← new_game (env i) (clock i) (storage_a i) (storage_b i);
      Some (World (ctl w) (generator w) g (screen w) (timeout_ms w))
  | Render =>
      sc ← render (game w);
      Some (World (ctl w) (generator w) (game w) sc (timeout_ms w))
  | SetTimeout ms =>
      Some (World (ctl w) (generator w) (game w) (screen w) ms)
  | BigBang =>
      g ← game_big_bang (game w);
      Some (World (ctl w) (generator w) g (screen w) (timeout_ms w))
  | Tick wr =>
      g ← tick wr (game w);
      Some (World (ctl w) (generator w) g (screen w) (timeout_ms w))
  | Invert =>
      g ← game_invert (game w);
      Some (World (ctl w) (generator w) g (screen w) (timeout_ms w))
  | Thanos =>
      g ← game_thanos (game w);
      Some (World (ctl w) (generator w) g (screen w) (timeout_ms w))
  end.

Fixpoint perform_all (i : input) (cs : list call) (w : world) : option world :=
  match cs with
  | [] => Some w
  | c :: cs' => w' ← perform i c w; perform_all i cs' w'
  end.

(** One pass of the loop on the whole state; the flag tells whether the
    loop was left. *)
Definition main_iteration (i : input) (w : world) : option (world * bool) :=
  let draw := uniform_int_distribution 0 100000 (generator w) in
  let r := iteration (key i) (draw.1) (ctl w) in
  w' ← perform_all i (r.1.2) w;
  Some (World (r.1.1) (draw.2) (game w') (screen w') (timeout_ms w'), r.2).

(** The loop over the keys of a session, up to the first ['q']. *)
Fixpoint main_loop (inputs : list input) (w : world) : option world :=
  match inputs with
  | [] => Some w
  | i :: rest =>
      '(w', stop) ← main_iteration i w;
      if stop : bool then Some w' else main_loop rest w'
  end.

(** [main] up to the loop: the first game is made from [i] and rendered. *)
Definition main_start (i : input) : option world :=
  g ← new_game (env i) (clock i) (storage_a i) (storage_b i);
  sc ← render g;
  Some (World initial_control default_random_engine g sc min_tick_ms).

(** The front grid of the game a state of [main] holds. *)
Definition front_grid (w : world) : grid := front (buffer (game w)).

End Main.

(** ** Well-formed grids *)

(** The data-model invariant of a grid: positive dimensions, an array of
    exactly [width * height] cells, and a cell count that an [int] holds. *)
Record grid_ok (g : grid) : Prop := GridOk {
  width_pos : 0 < width g;
  height_pos : 0 < height g;
  size_fits : width g * height g <= Int.MAX;
  data_length : Z.of_nat (length (data g)) = width g * height g
}.

(** The coordinate sums [x + width] and [y + height] of [operator()] stay
    in the range of [int] for every coordinate up to [width], [height]. *)
Definition coords_fit (g : grid) : Prop :=
  2 * width g <= Int.MAX /\ 2 * height g <= Int.MAX.

(** A game whose two grids are well formed and of equal dimensions. *)
Record game_ok (g : game_of_life) : Prop := GameOk {
  front_ok : grid_ok (front (buffer g));
  back_ok : grid_ok (back (buffer g));
  same_width : width (front (buffer g)) = width (back (buffer g));
  same_height : height (front (buffer g)) = height (back (buffer g));
  front_fits : coords_fit (front (buffer g))
}.

(** A game that can be rendered: well formed, with an even height. *)
Definition playable (g : game_of_life) : Prop :=
  game_ok g /\ Z.even (height (front (buffer g))) = true.

(** An environment from which [new_game] builds a playable game. *)
Definition env_ok (e : environment) : Prop :=
  exists w h,
    override (GOL_WIDTH e) (columns e) = Some w /\
    override (GOL_HEIGHT e) (lines e) = Some h /\
    1 <= w /\ 1 <= h /\ 4 * h <= Int.MAX /\ w * (2 * h) <= Int.MAX.

(** The number of live cells of a grid. *)
Definition live_count (g : grid) : nat := length (filter (λ c, c = true) (data g)).

(** ** The transition rule as the specification words it *)

Module Spec.

(** The state of the cell at an in-range position. *)
Definition alive (g : grid) (x y : Z) : bool :=
  match cell g x y with Some c => c | None => false end.

(** The eight surrounding positions, as offsets. *)
Definition offsets : list (Z * Z) :=
  [(-1, -1); (-1, 0); (-1, 1); (0, -1); (0, 1); (1, -1); (1, 0); (1, 1)].

Definition inside (g : grid) (x y : Z) : bool :=
  (0 <=? x) && (x <? width g) && (0 <=? y) && (y <? height g).

(** What the neighbour at offset [o] of [(x, y)] contributes: with [wrap]
    the position is taken modulo the dimensions; without, a position
    across a boundary contributes 0. *)
Definition contribution (g : grid) (wrap : bool) (x y : Z) (o : Z * Z) : Z :=
  let nx := x + o.1 in
  let ny := y + o.2 in
  if wrap then bool_to_int (alive g (nx mod width g) (ny mod height g))
  else if inside g nx ny then bool_to_int (alive g nx ny) else 0.

Definition live_neighbours (g : grid) (wrap : bool) (x y : Z) : Z :=
  foldr Z.add 0 (map (contribution g wrap x y) offsets).

(** Alive iff the count is 3, or the cell was alive and the count is 2. *)
Definition rule (was_alive : bool) (count : Z) : bool :=
  (count =? 3) || (was_alive && (count =? 2)).

End Spec.

(** ** The per-cell distributions of the two randomizations *)

(** The values [lo..hi] a uniform draw takes. *)
Definition outcomes (lo hi : Z) : list Z :=
  map (λ k, lo + Z.of_nat k) (seq 0 (Z.to_nat (hi - lo + 1))).

(** The probability that a draw uniform over [lo..hi] satisfies [alive]. *)
Definition probability (lo hi : Z) (alive : Z -> bool) : Q :=
  Z.of_nat (length (filter (λ z, alive z = true) (outcomes lo hi)))
  # Z.to_pos (Z.of_nat (length (outcomes lo hi))).

(** [big_bang]: a dead cell becomes [random_int_generator() == 0], the
    generator drawing from [0..10]. *)
Definition big_bang_probability : Q := probability 0 big_bang_max is_zero.

(** The constructor of [game_of_life]: a cell becomes
    [distribution(engine) == 0], the distribution being [0..frequency]. *)
Definition initial_probability : Q := probability 0 frequency is_zero.

(** ** The transition, cell by cell *)

(** The new state of cell [(x, y)] that the specification prescribes. *)
Definition next_alive (i : grid) (wrap : bool) (x y : Z) : bool :=
  Spec.rule (Spec.alive i x y) (Spec.live_neighbours i wrap x y).

(** The cells of [out] already assigned when the loops stand at [(x, y)]:
    the rows above [y] and, on row [y], the columns left of [x]. *)
Definition assigned (i : grid) (wrap : bool) (y x : Z) (o : grid) : Prop :=
  width o = width i /\ height o = height i /\
  Z.of_nat (length (data o)) = width i * height i /\
  forall x' y', 0 <= x' < width i -> 0 <= y' < height i ->
    y' < y \/ (y' = y /\ x' < x) ->
    data o !! Z.to_nat (x' + y' * width i) = Some (next_alive i wrap x' y').

(** ** Observing the control loop *)

(** The locals after the passes for a sequence of (key, draw) pairs, up to
    the first pass that leaves the loop. *)
Fixpoint control_run (events : list (Z * Z)) (c : control) : control :=
  match events with
  | [] => c
  | ev :: rest =>
      let r := iteration (ev.1) (ev.2) c in
      if r.2 then r.1.1 else control_run rest (r.1.1)
  end.

(** The tick intervals the loop can reach. *)
Definition tick_reachable (t : Z) : Prop :=
  In t [8; 16; 32; 64; 128; 256; 512; 1024].

Definition is_big_bang (c : call) : bool :=
  match c with BigBang => true | _ => false end.

Definition is_invert (c : call) : bool :=
  match c with Invert => true | _ => false end.

Definition is_thanos (c : call) : bool :=
  match c with Thanos => true | _ => false end.

(** The calls made after the first call that [sel] picks. *)
Fixpoint calls_after (sel : call -> bool) (cs : list call) : option (list call) :=
  match cs with
  | [] => None
  | c :: rest => if sel c then Some rest else calls_after sel rest
  end.

(** The number of generation transitions among the calls. *)
Fixpoint ticks (cs : list call) : nat :=
  match cs with
  | [] => 0%nat
  | Tick _ :: rest => Datatypes.S (ticks rest)
  | _ :: rest => ticks rest
  end.

(** ** The perturbations, cell by cell *)

Section Sweep.
Context {E : RandomEngine}.

(** One pass over the cells in array order, the engine handed from each
    cell to the next. *)
Fixpoint sweep (f : engine -> bool -> engine * bool) (e : engine)
    (d : list bool) : engine * list bool :=
  match d with
  | [] => (e, [])
  | c :: rest =>
      let r := f e c in
      let t := sweep f (r.1) rest in
      (t.1, r.2 :: t.2)
  end.

(** What [big_bang] does to one cell: a live cell stays and takes no draw,
    a dead cell takes the next draw from [0..10] and is alive iff it is 0. *)
Definition seed_cell (e : engine) (c : bool) : engine * bool :=
  if c then (e, true)
  else
    let draw := uniform_int_distribution 0 big_bang_max e in
    (draw.2, is_zero (draw.1)).

(** What [thanos] does to one cell: a dead cell stays and takes no draw, a
    live cell takes the next draw from [0..1] and stays alive iff it is
    not 0. *)
Definition cull_cell (e : engine) (c : bool) : engine * bool :=
  if c then
    let draw := uniform_int_distribution 0 1 e in
    (draw.2, negb (draw.1 =? 0))
  else (e, false).

End Sweep.

(** ** Sample inputs *)

(** A vertical blinker in the middle of a 5 x 5 grid. *)
Definition blinker : grid :=
  Grid 5 5 [false; false; false; false; false;
            false; false; true;  false; false;
            false; false; true;  false; false;
            false; false; true;  false; false;
            false; false; false; false; false].

(** The same blinker lying horizontally. *)
Definition blinker_flat : grid :=
  Grid 5 5 [false; false; false; false; false;
            false; false; false; false; false;
            false; true;  true;  true;  false;
            false; false; false; false; false;
            false; false; false; false; false].

(** A 2 x 2 square of live cells in a 4 x 4 grid. *)
Definition square_block : grid :=
  Grid 4 4 [false; false; false; false;
            false; true;  true;  false;
            false; true;  true;  false;
            false; false; false; false].

(** Two live cells facing each other across the left and right edges of a
    3 x 3 grid, and a third one below the first. *)
Definition edge_pair : grid :=
  Grid 3 3 [true;  false; true;
            true;  false; false;
            false; false; false].

Definition all_dead (w h : Z) : grid := Grid w h (replicate (Z.to_nat (w * h)) false).

(** Storage that was last used for something else. *)
Definition dirty_storage : nat -> bool := λ _, true.

Definition clean_storage : nat -> bool := λ _, false.

(** An 80 x 24 terminal with [GOL_WIDTH=0]. *)
Definition zero_width_env : environment := Environment 80 24 (Value 0) Unset.




(** A 4 x 2 terminal without overrides. *)
Definition small_env : environment := Environment 4 2 Unset Unset.

Definition paused : control := Control 8 false true.

(** Two states of [main] over the linear congruential engine that hold the
    same front grid and differ in everything else. *)
Definition world_one : @world lcg_engine :=
  @World lcg_engine initial_control 1 (Game (DoubleBuffer true square_block (all_dead 4 4))) [] 8.

Definition world_two : @world lcg_engine :=
  @World lcg_engine paused 48271 (Game (DoubleBuffer false blinker square_block)) [[Full]] 64.

Definition no_key_input : input := Input (-1) small_env 0 clean_storage clean_storage.

(** A paused state of [main] whose front grid is the square. *)
Definition paused_world : @world lcg_engine :=
  @World lcg_engine paused 1 (Game (DoubleBuffer true square_block (all_dead 4 4))) [] 8.

(** The square inverted. *)
Definition square_hole : grid :=
  Grid 4 4 [true; true;  true;  true;
            true; false; false; true;
            true; false; false; true;
            true; true;  true;  true].

(** ['i'] pressed. *)
Definition invert_key_input : input :=
  Input (chr "i") small_env 0 clean_storage clean_storage.

(** ['r'] pressed on a 4 x 2 terminal. *)
Definition new_game_key_input : input :=
  Input (chr "r") small_env 0 clean_storage clean_storage.

Definition other_input : input := Input (chr "x") zero_width_env 7 dirty_storage dirty_storage.

(** ** Observing the construction and a session *)

Section Draws.
Context {E : RandomEngine}.

(** The engine of the constructor of [game_of_life] after [k] draws from
    its distribution. *)
Fixpoint engine_after (k : nat) (e : engine) : engine :=
  match k with
  | O => e
  | Datatypes.S k' => (uniform_int_distribution 0 frequency (engine_after k' e)).2
  end.

(** The state the constructor gives cell number [k]: whether draw number
    [k] of the engine seeded with [seed] is 0. *)
Definition initial_cell (seed : Z) (k : nat) : bool :=
  is_zero (uniform_int_distribution 0 frequency
             (engine_after k (seeded_random_engine seed))).1.

End Draws.

(** The argument of the last [timeout] among the calls, [t] if there is
    none. *)
Fixpoint last_timeout (cs : list call) (t : Z) : Z :=
  match cs with
  | [] => t
  | SetTimeout ms :: rest => last_timeout rest ms
  | _ :: rest => last_timeout rest t
  end.

(** Whether the screen lags behind the game after the calls: every call
    that changes the game makes it stale, [render] makes it current. *)
Fixpoint stale_after (cs : list call) (stale : bool) : bool :=
  match cs with
  | [] => stale
  | Render :: rest => stale_after rest false
  | SetTimeout _ :: rest => stale_after rest stale
  | _ :: rest => stale_after rest true
  end.

(** A grid with every cell alive. *)
Definition all_alive (w h : Z) : grid := Grid w h (replicate (Z.to_nat (w * h)) true).

(** A playable game over the square. *)
Definition square_game : game_of_life :=
  Game (DoubleBuffer true square_block (all_dead 4 4)).

(** A pause key, then a speed key, then quit. *)
Definition short_session : list input :=
  [Input (chr "p") small_env 0 clean_storage clean_storage;
   Input (chr "-") small_env 0 clean_storage clean_storage;
   Input (chr "q") small_env 0 clean_storage clean_storage].

(** * Proofs *)

(** ** Integers and arrays *)

Lemma wrap_int_id z : Int.MIN <= z <= Int.MAX -> Int.wrap_int z = z.
Proof.
  unfold Int.MIN, Int.MAX, Int.wrap_int. intros Hz.
  rewrite Z.mod_small by lia. lia.
Qed.

Lemma load_lookup (d : list bool) i :
  0 <= i -> load d i = d !! Z.to_nat i.
Proof. intros Hi. unfold load. destruct (Z.ltb_spec i 0); [lia | done]. Qed.

Lemma load_is_Some (d : list bool) i :
  0 <= i < Z.of_nat (length d) -> is_Some (load d i).
Proof.
  intros Hi. rewrite load_lookup by lia. apply lookup_lt_is_Some. lia.
Qed.

Lemma store_insert (d : list bool) i v :
  0 <= i < Z.of_nat (length d) -> store d i v = Some (<[Z.to_nat i := v]> d).
Proof.
  intros Hi. unfold store.
  destruct (Z.leb_spec 0 i); [| lia].
  destruct (Z.ltb_spec i (Z.of_nat (length d))); [done | lia].
Qed.

(** ** Loops *)

Lemma iterate_invariant {S : Type} (P : Z -> S -> Prop) step
    (body : Z -> S -> option S) n i s :
  P i s ->
  (forall k s0, (k < n)%nat -> P (i + Z.of_nat k * step) s0 ->
     exists s1, body (i + Z.of_nat k * step) s0 = Some s1 /\
                P (i + Z.of_nat (Datatypes.S k) * step) s1) ->
  exists s', iterate n i step body s = Some s' /\ P (i + Z.of_nat n * step) s'.
Proof.
  revert i s. induction n as [| n IH]; intros i s Hs Hbody.
  - exists s. split; [done |]. by replace (i + Z.of_nat 0 * step) with i by lia.
  - destruct (Hbody 0%nat s) as (s1 & Hb & Hs1); [lia | |].
    { by replace (i + Z.of_nat 0 * step) with i by lia. }
    replace (i + Z.of_nat 0 * step) with i in Hb by lia.
    replace (i + Z.of_nat 1 * step) with (i + step) in Hs1 by lia.
    destruct (IH (i + step) s1 Hs1) as (s' & Hrun & Hs').
    { intros k s0 Hk Hs0.
      replace (i + step + Z.of_nat k * step)
        with (i + Z.of_nat (Datatypes.S k) * step) in * by lia.
      destruct (Hbody (Datatypes.S k) s0) as (s2 & Hb2 & Hs2); [lia | done |].
      exists s2. split; [done |].
      by replace (i + step + Z.of_nat (Datatypes.S k) * step)
        with (i + Z.of_nat (Datatypes.S (Datatypes.S k)) * step) by lia. }
    exists s'. split.
    + simpl. by rewrite Hb.
    + by replace (i + Z.of_nat (Datatypes.S n) * step)
        with (i + step + Z.of_nat n * step) by lia.
Qed.

(** A loop counting from 0 up to [stop] keeps an invariant that each pass
    carries from [k] to [k + 1], and it ends. *)
Lemma for_lt_invariant {S : Type} (P : Z -> S -> Prop)
    (body : Z -> S -> option S) stop s :
  0 <= stop ->
  P 0 s ->
  (forall k s0, 0 <= k < stop -> P k s0 ->
     exists s1, body k s0 = Some s1 /\ P (k + 1) s1) ->
  exists s', for_lt stop body s = Some s' /\ P stop s'.
Proof.
  intros Hstop Hs Hbody. unfold for_lt.
  destruct (iterate_invariant P 1 body (Z.to_nat stop) 0 s Hs) as (s' & Hrun & Hs').
  - intros k s0 Hk Hs0.
    destruct (Hbody (0 + Z.of_nat k * 1) s0) as (s1 & Hb & Hs1); [lia | done |].
    exists s1. split; [done |].
    by replace (0 + Z.of_nat (Datatypes.S k) * 1) with (0 + Z.of_nat k * 1 + 1) by lia.
  - exists s'. split; [done |].
    by replace stop with (0 + Z.of_nat (Z.to_nat stop) * 1) by lia.
Qed.

Lemma for_ne_invariant {S : Type} (P : Z -> S -> Prop)
    (body : Z -> S -> option S) stop s :
  0 <= stop ->
  P 0 s ->
  (forall k s0, 0 <= k < stop -> P k s0 ->
     exists s1, body k s0 = Some s1 /\ P (k + 1) s1) ->
  exists s', for_ne stop body s = Some s' /\ P stop s'.
Proof.
  intros Hstop Hs Hbody. unfold for_ne.
  destruct (Z.ltb_spec stop 0); [lia |].
  by apply (for_lt_invariant P body stop s).
Qed.

(** ** The accessor *)

Lemma index_canonical g x y :
  grid_ok g ->
  - width g <= x <= Int.MAX - width g ->
  - height g <= y <= Int.MAX - height g ->
  index g x y = Some (x mod width g + (y mod height g) * width g) /\
  0 <= x mod width g + (y mod height g) * width g < width g * height g.
Proof.
  intros [Hw Hh Hfit Hlen] Hx Hy.
  pose proof (Z.mod_pos_bound x (width g) Hw) as Hxm.
  pose proof (Z.mod_pos_bound y (height g) Hh) as Hym.
  assert (0 <= (y mod height g) * width g <= (height g - 1) * width g) as Hrow by nia.
  split; [| nia].
  unfold index, Int.rem, Int.add, Int.mul, Int.MIN, Int.MAX in *.
  destruct (Z.eqb_spec (width g) 0); [lia |].
  destruct (Z.eqb_spec (height g) 0); [lia |].
  rewrite !(wrap_int_id (_ + width g)) by (unfold Int.MIN, Int.MAX; lia).
  rewrite !(wrap_int_id (_ + height g)) by (unfold Int.MIN, Int.MAX; lia).
  rewrite !Z.rem_mod_nonneg by lia.
  replace ((x + width g) mod width g) with (x mod width g)
    by (rewrite <- (Z_mod_plus_full x 1 (width g)); f_equal; lia).
  replace ((y + height g) mod height g) with (y mod height g)
    by (rewrite <- (Z_mod_plus_full y 1 (height g)); f_equal; lia).
  simpl.
  rewrite (wrap_int_id (_ * _)) by (unfold Int.MIN, Int.MAX; nia).
  rewrite wrap_int_id by (unfold Int.MIN, Int.MAX; nia).
  done.
Qed.

Lemma cell_canonical g x y :
  grid_ok g ->
  - width g <= x <= Int.MAX - width g ->
  - height g <= y <= Int.MAX - height g ->
  cell g x y = data g !! Z.to_nat (x mod width g + (y mod height g) * width g) /\
  is_Some (cell g x y).
Proof.
  intros Hok Hx Hy.
  destruct (index_canonical g x y Hok Hx Hy) as [Hi Hb].
  pose proof (data_length g Hok) as Hlen.
  unfold cell. rewrite Hi. simpl. rewrite load_lookup by lia.
  split; [done |]. apply lookup_lt_is_Some. lia.
Qed.

Lemma grid_new_ok w h storage :
  0 < w -> 0 < h -> w * h <= Int.MAX ->
  grid_new w h storage = Some (Grid w h (map storage (seq 0 (Z.to_nat (w * h))))) /\
  grid_ok (Grid w h (map storage (seq 0 (Z.to_nat (w * h))))).
Proof.
  intros Hw Hh Hfit. unfold grid_new, Int.mul.
  rewrite wrap_int_id by (unfold Int.MIN, Int.MAX in *; nia).
  destruct (Z.ltb_spec (w * h) 0); [nia |].
  split; [done |].
  constructor; simpl; try done.
  rewrite length_map, length_seq. lia.
Qed.

(** ** Neighbour counting *)

Lemma cell_alive g x y :
  is_Some (cell g x y) -> cell g x y = Some (Spec.alive g x y).
Proof. intros [c Hc]. unfold Spec.alive. by rewrite Hc. Qed.

(** Reading at a position one step outside the grid reads the position
    taken modulo the dimensions. *)
Lemma cell_modulo g x y :
  grid_ok g -> coords_fit g ->
  - 1 <= x <= width g -> - 1 <= y <= height g ->
  cell g x y = Some (Spec.alive g (x mod width g) (y mod height g)).
Proof.
  intros Hok [Hfw Hfh] Hx Hy.
  pose proof (width_pos g Hok) as Hw. pose proof (height_pos g Hok) as Hh.
  pose proof (Z.mod_pos_bound x (width g) Hw) as Hxm.
  pose proof (Z.mod_pos_bound y (height g) Hh) as Hym.
  destruct (cell_canonical g x y Hok) as [Hc _]; [lia | lia |].
  destruct (cell_canonical g (x mod width g) (y mod height g) Hok)
    as [Hm Hs]; [lia | lia |].
  rewrite !Z.mod_mod in Hm by lia.
  rewrite Hc, <- Hm. by apply cell_alive.
Qed.

Lemma cell_inside g x y :
  grid_ok g -> coords_fit g ->
  0 <= x < width g -> 0 <= y < height g ->
  cell g x y = Some (Spec.alive g x y) /\
  cell g x y = data g !! Z.to_nat (x + y * width g).
Proof.
  intros Hok [Hfw Hfh] Hx Hy.
  destruct (cell_canonical g x y Hok) as [Hc Hs]; [lia | lia |].
  rewrite !Z.mod_small in Hc by lia.
  split; [by apply cell_alive | done].
Qed.

(** One guarded read of [neighbours] against one contribution of the
    specification's count. *)
Lemma and_cell_contribution g wrap x y dx dy guard :
  grid_ok g -> coords_fit g ->
  0 <= x < width g -> 0 <= y < height g ->
  - 1 <= dx <= 1 -> - 1 <= dy <= 1 ->
  guard = wrap || Spec.inside g (x + dx) (y + dy) ->
  exists c, and_cell guard g (x + dx) (y + dy) = Some c /\
            bool_to_int c = Spec.contribution g wrap x y (dx, dy).
Proof.
  intros Hok Hfit Hx Hy Hdx Hdy ->.
  unfold and_cell, Spec.contribution. simpl.
  destruct wrap; simpl.
  - eexists. split; [apply cell_modulo; (done || lia) | done].
  - destruct (Spec.inside g (x + dx) (y + dy)) eqn:Hin.
    + unfold Spec.inside in Hin.
      eexists. split; [| done].
      apply cell_inside; (done || lia).
    + by exists false.
Qed.

Lemma neighbours_count g wrap x y :
  grid_ok g -> coords_fit g ->
  0 <= x < width g -> 0 <= y < height g ->
  neighbours g wrap x y = Some (Spec.live_neighbours g wrap x y).
Proof.
  intros Hok Hfit Hx Hy.
  pose proof (size_fits g Hok) as Hsz.
  assert (2 * width g <= Int.MAX /\ 2 * height g <= Int.MAX) as [Hfw Hfh] by done.
  unfold neighbours, Int.sub, Int.add.
  rewrite !wrap_int_id by (unfold Int.MIN, Int.MAX in *; lia).
  assert (forall dx dy nx ny guard, - 1 <= dx <= 1 -> - 1 <= dy <= 1 ->
            nx = x + dx -> ny = y + dy ->
            guard = wrap || Spec.inside g nx ny ->
            exists c, and_cell guard g nx ny = Some c /\
                      bool_to_int c = Spec.contribution g wrap x y (dx, dy))
    as Hread by (intros; subst; by apply and_cell_contribution).
  destruct (Hread (-1) (-1) (x - 1) (y - 1)
              ((wrap || negb (x =? 0)) && (wrap || negb (y =? 0))))
    as (c1 & -> & E1); [lia | lia | lia | lia | |].
  { unfold Spec.inside. destruct wrap; [done |]. simpl. lia. }
  destruct (Hread (-1) 0 (x - 1) y (wrap || negb (x =? 0)))
    as (c2 & -> & E2); [lia | lia | lia | lia | |].
  { unfold Spec.inside. destruct wrap; [done |]. simpl. lia. }
  destruct (Hread (-1) 1 (x - 1) (y + 1)
              ((wrap || negb (x =? 0)) && (wrap || negb (y =? height g - 1))))
    as (c3 & -> & E3); [lia | lia | lia | lia | |].
  { unfold Spec.inside. destruct wrap; [done |]. simpl. lia. }
  destruct (Hread 0 (-1) x (y - 1) (wrap || negb (y =? 0)))
    as (c4 & -> & E4); [lia | lia | lia | lia | |].
  { unfold Spec.inside. destruct wrap; [done |]. simpl. lia. }
  destruct (Hread 0 1 x (y + 1) (wrap || negb (y =? height g - 1)))
    as (c5 & -> & E5); [lia | lia | lia | lia | |].
  { unfold Spec.inside. destruct wrap; [done |]. simpl. lia. }
  destruct (Hread 1 (-1) (x + 1) (y - 1)
              ((wrap || negb (x =? width g - 1)) && (wrap || negb (y =? 0))))
    as (c6 & -> & E6); [lia | lia | lia | lia | |].
  { unfold Spec.inside. destruct wrap; [done |]. simpl. lia. }
  destruct (Hread 1 0 (x + 1) y (wrap || negb (x =? width g - 1)))
    as (c7 & -> & E7); [lia | lia | lia | lia | |].
  { unfold Spec.inside. destruct wrap; [done |]. simpl. lia. }
  destruct (Hread 1 1 (x + 1) (y + 1)
              ((wrap || negb (x =? width g - 1)) && (wrap || negb (y =? height g - 1))))
    as (c8 & -> & E8); [lia | lia | lia | lia | |].
  { unfold Spec.inside. destruct wrap; [done |]. simpl. lia. }
  simpl. f_equal. unfold Spec.live_neighbours, Spec.offsets. simpl. lia.
Qed.

(** ** The generation transition *)

Lemma next_state_rule g wrap x y :
  grid_ok g -> coords_fit g ->
  0 <= x < width g -> 0 <= y < height g ->
  next_state g (Spec.live_neighbours g wrap x y) x y = Some (next_alive g wrap x y).
Proof.
  intros Hok Hfit Hx Hy. unfold next_state, next_alive, Spec.rule.
  destruct (cell_inside g x y Hok Hfit Hx Hy) as [-> _]. simpl.
  by destruct (Spec.live_neighbours g wrap x y =? 3).
Qed.

Lemma position_inj w x y x' y' :
  0 <= x < w -> 0 <= x' < w -> 0 <= y -> 0 <= y' ->
  x + y * w = x' + y' * w -> x = x' /\ y = y'.
Proof. intros Hx Hx' Hy Hy' Heq. assert (y = y') by nia. subst. lia. Qed.

Lemma next_cell_assigns i wrap y x o :
  grid_ok i -> coords_fit i ->
  0 <= x < width i -> 0 <= y < height i ->
  assigned i wrap y x o ->
  exists o', next_cell i wrap y x o = Some o' /\ assigned i wrap y (x + 1) o'.
Proof.
  intros Hok Hfit Hx Hy (Hw & Hh & Hlen & Hdone).
  assert (grid_ok o) as Hoko.
  { destruct Hok. constructor; rewrite ?Hw, ?Hh; done. }
  unfold next_cell.
  rewrite neighbours_count by done. simpl.
  rewrite next_state_rule by done. simpl.
  unfold set_cell.
  destruct (index_canonical o x y Hoko) as [Hi Hb].
  { rewrite Hw. pose proof (size_fits i Hok). destruct Hfit. lia. }
  { rewrite Hh. pose proof (size_fits i Hok). destruct Hfit. lia. }
  rewrite Hw, Hh in *. rewrite !Z.mod_small in * by lia.
  rewrite Hi. simpl. rewrite store_insert by lia. simpl.
  eexists. split; [done |].
  repeat split; simpl; try done.
  - by rewrite length_insert.
  - intros x' y' Hx' Hy' Hpos.
    destruct (decide (x' = x /\ y' = y)) as [[-> ->] | Hne].
    + apply list_lookup_insert_eq. lia.
    + rewrite list_lookup_insert_ne.
      * apply Hdone; [done | done | lia].
      * intros Heq. apply Hne.
        destruct (position_inj (width i) x y x' y'); [lia | lia | lia | lia | | done].
        assert (0 <= x' + y' * width i) by nia. lia.
Qed.

Lemma next_row_assigns i wrap y o :
  grid_ok i -> coords_fit i ->
  0 <= y < height i ->
  assigned i wrap y 0 o ->
  exists o', for_ne (width i) (next_cell i wrap y) o = Some o' /\
             assigned i wrap (y + 1) 0 o'.
Proof.
  intros Hok Hfit Hy Hstart.
  pose proof (width_pos i Hok) as Hw.
  destruct (for_ne_invariant (assigned i wrap y) (next_cell i wrap y) (width i) o)
    as (o' & Hrun & Hend); [lia | done | |].
  - intros x o0 Hx Ho0. by apply next_cell_assigns.
  - exists o'. split; [done |].
    destruct Hend as (Hw' & Hh' & Hlen & Hdone).
    repeat split; try done.
    intros x' y' Hx' Hy' Hpos. apply Hdone; [done | done | lia].
Qed.

Lemma assigned_grid_ok i wrap y x o :
  grid_ok i -> assigned i wrap y x o -> grid_ok o.
Proof.
  intros Hok (Hw & Hh & Hlen & _).
  destruct Hok. constructor; rewrite ?Hw, ?Hh; done.
Qed.

(** The two loops return and leave every cell of [out] assigned. *)
Lemma next_generation_assigns i out wrap :
  grid_ok i -> grid_ok out -> coords_fit i ->
  width i = width out -> height i = height out ->
  exists out', next_generation i out wrap = Some out' /\
               assigned i wrap (height i) 0 out'.
Proof.
  intros Hok Hoko Hfit Hw Hh.
  pose proof (height_pos i Hok) as Hhp.
  unfold next_generation.
  rewrite Hw, Hh, !Z.eqb_refl. simpl. rewrite <- Hw, <- Hh.
  apply (for_ne_invariant (λ y o, assigned i wrap y 0 o)); [lia | |].
  - repeat split; try done.
    + rewrite Hw, Hh. apply (data_length out Hoko).
    + intros; lia.
  - intros y o Hy Ho. by apply next_row_assigns.
Qed.

Lemma assigned_cell i wrap o x y :
  grid_ok i -> coords_fit i ->
  assigned i wrap (height i) 0 o ->
  0 <= x < width i -> 0 <= y < height i ->
  cell o x y = Some (next_alive i wrap x y).
Proof.
  intros Hok Hfit Hall Hx Hy.
  pose proof (assigned_grid_ok i wrap _ _ o Hok Hall) as Hoko.
  destruct Hall as (Hw & Hh & Hlen & Hdone).
  destruct (cell_inside o x y Hoko) as [_ ->].
  - destruct Hfit. split; by rewrite ?Hw, ?Hh.
  - by rewrite Hw.
  - by rewrite Hh.
  - rewrite Hw. apply Hdone; [done | done | lia].
Qed.

(** C1. For two grids [in] and [out] (two objects) of identical positive
    dimensions, their sizes within what the [int] arithmetic of the
    accessor holds, and either value of [wrap], [next_generation] returns,
    leaves the dimensions of [out] as they were, and sets every cell
    [(x, y)] of [out] alive iff the live-neighbour count of [(x, y)] over
    the eight surrounding positions of [in] is 3, or [in(x, y)] is alive
    and the count is 2; with [wrap] the eight positions are taken modulo
    the dimensions, without it a position across a boundary counts 0. *)
Theorem next_generation_rule (i out : grid) (wrap : bool) :
  grid_ok i -> grid_ok out -> coords_fit i ->
  width i = width out -> height i = height out ->
  exists out',
    next_generation i out wrap = Some out' /\
    width out' = width out /\ height out' = height out /\
    length (data out') = length (data out) /\
    forall x y, 0 <= x < width i -> 0 <= y < height i ->
      cell out' x y
      = Some (Spec.rule (Spec.alive i x y) (Spec.live_neighbours i wrap x y)).
Proof.
  intros Hok Hoko Hfit Hw Hh.
  destruct (next_generation_assigns i out wrap Hok Hoko Hfit Hw Hh)
    as (out' & Hrun & Hall).
  exists out'. split; [done |].
  pose proof Hall as (Hw' & Hh' & Hlen & _).
  split; [congruence |]. split; [congruence |].
  split; [pose proof (data_length out Hoko); nia |].
  intros x y Hx Hy. by apply (assigned_cell i wrap out').
Qed.

(** ** One generation of the game *)

Lemma front_swap_set_back d o : front (swap (set_back d o)) = o.
Proof. unfold front, swap, set_back. by destruct (first d). Qed.

Lemma back_swap_set_back d o : back (swap (set_back d o)) = front d.
Proof. unfold front, back, swap, set_back. by destruct (first d). Qed.

(** [tick] on a well-formed game returns; the new front grid holds the
    next generation of the old one, which becomes the back grid. *)
Lemma tick_advances wrap g :
  game_ok g ->
  exists g', tick wrap g = Some g' /\ game_ok g' /\
    back (buffer g') = front (buffer g) /\
    forall x y, 0 <= x < width (front (buffer g)) ->
                0 <= y < height (front (buffer g)) ->
      cell (front (buffer g')) x y = Some (next_alive (front (buffer g)) wrap x y).
Proof.
  intros [Hf Hb Hw Hh Hfit]. unfold tick.
  destruct (next_generation_assigns _ _ wrap Hf Hb Hfit Hw Hh) as (o & -> & Hall).
  simpl. eexists. split; [done |]. simpl.
  pose proof (assigned_grid_ok _ _ _ _ _ Hf Hall) as Hoko.
  pose proof Hall as (Hw' & Hh' & _ & _).
  split; [| split].
  - constructor; simpl; rewrite ?front_swap_set_back, ?back_swap_set_back;
      try done.
    destruct Hfit. split; by rewrite ?Hw', ?Hh'.
  - apply back_swap_set_back.
  - intros x y Hx Hy. rewrite front_swap_set_back.
    by apply (assigned_cell _ wrap o).
Qed.

(** ** The perturbations *)

Lemma live_cells_mono (d d0 : list bool) :
  length d = length d0 ->
  (forall j, d !! j = Some true -> d0 !! j = Some true) ->
  (length (filter (λ c, c = true) d) <= length (filter (λ c, c = true) d0))%nat.
Proof.
  revert d0. induction d as [| c d IH]; intros [| c0 d0] Hlen Hle;
    try discriminate Hlen.
  - done.
  - assert (length (filter (λ c, c = true) d)
            <= length (filter (λ c, c = true) d0))%nat as Htl.
    { apply IH; [by injection Hlen |]. intros j Hj. apply (Hle (Datatypes.S j) Hj). }
    assert (c = true -> c0 = true) as Hhd.
    { intros ->. specialize (Hle 0%nat eq_refl). by injection Hle. }
    rewrite !filter_cons.
    destruct (decide (c = true)), (decide (c0 = true)); simpl; try lia.
    by exfalso; auto.
Qed.

Lemma dead_stays_dead (d d0 : list bool) k :
  length d = length d0 ->
  (forall j, d !! j = Some true -> d0 !! j = Some true) ->
  d0 !! k = Some false -> d !! k = Some false.
Proof.
  intros Hlen Hle Hk.
  destruct (lookup_lt_is_Some_2 d k) as [c Hc].
  { rewrite Hlen. by eapply lookup_lt_Some. }
  destruct c; [| done].
  apply Hle in Hc. congruence.
Qed.

Lemma cell_count g :
  grid_ok g ->
  Int.mul (width g) (height g) = Z.of_nat (length (data g)).
Proof.
  intros [Hw Hh Hfit Hlen]. unfold Int.mul.
  rewrite wrap_int_id by (unfold Int.MIN, Int.MAX in *; nia). lia.
Qed.

Section SweepLoop.
Context {E : RandomEngine}.

Lemma sweep_app f e (l1 l2 : list bool) :
  sweep f e (l1 ++ l2)
  = ((sweep f (sweep f e l1).1 l2).1,
     (sweep f e l1).2 ++ (sweep f (sweep f e l1).1 l2).2).
Proof.
  revert e. induction l1 as [| c l1 IH]; intros e; simpl.
  - by destruct (sweep f e l2).
  - by rewrite IH.
Qed.

Lemma sweep_length f e (l : list bool) : length (sweep f e l).2 = length l.
Proof. revert e. induction l as [| c l IH]; intros e; simpl; [done |]. by rewrite IH. Qed.

(** A loop over the whole array that updates cell [k] by [f] from the
    engine is the sweep by [f]. *)
Lemma sweep_loop f (body : Z -> engine * list bool -> option (engine * list bool))
    e0 (d0 : list bool) :
  (forall k e (d : list bool) c, 0 <= k -> d !! Z.to_nat k = Some c ->
     body k (e, d) = Some ((f e c).1, <[Z.to_nat k := (f e c).2]> d)) ->
  for_lt (Z.of_nat (length d0)) body (e0, d0) = Some (sweep f e0 d0).
Proof.
  intros Hbody.
  destruct (for_lt_invariant
    (λ k (s : engine * list bool),
       s = ((sweep f e0 (take (Z.to_nat k) d0)).1,
            (sweep f e0 (take (Z.to_nat k) d0)).2 ++ drop (Z.to_nat k) d0))
    body (Z.of_nat (length d0)) (e0, d0)) as (s & Hrun & Hs); [lia | done | |].
  - intros k s0 Hk ->.
    destruct (lookup_lt_is_Some_2 d0 (Z.to_nat k)) as [c Hc]; [lia |].
    assert (length (sweep f e0 (take (Z.to_nat k) d0)).2 = Z.to_nat k) as Hlen.
    { rewrite sweep_length, length_take_le; lia. }
    erewrite Hbody; [| lia |].
    2: { rewrite lookup_app_r by lia. rewrite Hlen, Nat.sub_diag.
         rewrite lookup_drop, Nat.add_0_r. exact Hc. }
    eexists. split; [done |].
    replace (Z.to_nat (k + 1)) with (Datatypes.S (Z.to_nat k)) by lia.
    rewrite (take_S_r _ _ _ Hc), sweep_app. simpl.
    rewrite (drop_S _ _ _ Hc).
    rewrite insert_app_r_alt by lia. rewrite Hlen, Nat.sub_diag. simpl.
    by rewrite <- app_assoc.
  - rewrite Hrun, Hs, Nat2Z.id, take_ge, drop_ge, app_nil_r by lia.
    by destruct (sweep f e0 d0).
Qed.

(** [big_bang] on a well-formed grid is the sweep by [seed_cell] from a
    default-constructed engine. *)
Lemma big_bang_sweep g :
  grid_ok g ->
  big_bang g
  = Some (Grid (width g) (height g)
            (sweep seed_cell default_random_engine (data g)).2).
Proof.
  intros Hok. unfold big_bang. rewrite (cell_count g Hok).
  erewrite (sweep_loop seed_cell); [done |].
  intros k e d c Hk Hc. simpl. rewrite load_lookup, Hc by lia. simpl.
  unfold seed_cell. destruct c; simpl.
  - by rewrite list_insert_id.
  - rewrite store_insert; [done |]. apply lookup_lt_Some in Hc. lia.
Qed.

(** [thanos] on a well-formed grid is the sweep by [cull_cell] from a
    default-constructed engine. *)
Lemma thanos_sweep g :
  grid_ok g ->
  thanos g
  = Some (Grid (width g) (height g)
            (sweep cull_cell default_random_engine (data g)).2).
Proof.
  intros Hok. unfold thanos. rewrite (cell_count g Hok).
  erewrite (sweep_loop cull_cell); [done |].
  intros k e d c Hk Hc. simpl. rewrite load_lookup, Hc by lia. simpl.
  unfold cull_cell. destruct c; simpl.
  - rewrite store_insert; [done |]. apply lookup_lt_Some in Hc. lia.
  - by rewrite list_insert_id.
Qed.

End SweepLoop.

Section Perturbations.
Context {E : RandomEngine}.

(** [thanos] returns on every well-formed grid, and no cell of the result
    is alive unless it was alive before. *)
Lemma thanos_culls g :
  grid_ok g ->
  exists g', thanos g = Some g' /\
    width g' = width g /\ height g' = height g /\
    length (data g') = length (data g) /\
    forall j, data g' !! j = Some true -> data g !! j = Some true.
Proof.
  intros Hok. unfold thanos. rewrite (cell_count g Hok).
  match goal with
  | |- context [for_lt ?n ?body ?s0] =>
      destruct (for_lt_invariant
        (λ (_ : Z) (s : engine * list bool),
           length (s.2) = length (data g) /\
           forall j, s.2 !! j = Some true -> data g !! j = Some true)
        body n s0) as ([e d] & Hrun & Hlen & Hle); [lia | done | |]
  end.
  - intros k [e0 d0] Hk [Hlen0 Hle0]. simpl in *.
    destruct (load_is_Some d0 k) as [c Hc]; [lia |].
    rewrite Hc. simpl. destruct c.
    + rewrite store_insert by lia. simpl.
      eexists. split; [done |]. simpl. split; [by rewrite length_insert |].
      intros j Hj. destruct (decide (j = Z.to_nat k)) as [-> | Hne].
      * apply Hle0. by rewrite <- load_lookup by lia.
      * rewrite list_lookup_insert_ne in Hj by done. by apply Hle0.
    + eexists. by split.
  - rewrite Hrun. simpl. eexists. split; [done |]. by simpl.
Qed.

(** [big_bang] returns on every well-formed grid, and every cell alive
    before is alive in the result. *)
Lemma big_bang_keeps g :
  grid_ok g ->
  exists g', big_bang g = Some g' /\
    width g' = width g /\ height g' = height g /\
    length (data g') = length (data g) /\
    forall j, data g !! j = Some true -> data g' !! j = Some true.
Proof.
  intros Hok. unfold big_bang. rewrite (cell_count g Hok).
  match goal with
  | |- context [for_lt ?n ?body ?s0] =>
      destruct (for_lt_invariant
        (λ (_ : Z) (s : engine * list bool),
           length (s.2) = length (data g) /\
           forall j, data g !! j = Some true -> s.2 !! j = Some true)
        body n s0) as ([e d] & Hrun & Hlen & Hle); [lia | done | |]
  end.
  - intros k [e0 d0] Hk [Hlen0 Hle0]. simpl in *.
    destruct (load_is_Some d0 k) as [c Hc]; [lia |].
    rewrite Hc. simpl. destruct c.
    + eexists. by split.
    + rewrite store_insert by lia. simpl.
      eexists. split; [done |]. simpl. split; [by rewrite length_insert |].
      intros j Hj. destruct (decide (j = Z.to_nat k)) as [-> | Hne].
      * apply Hle0 in Hj. rewrite load_lookup in Hc by lia. congruence.
      * rewrite list_lookup_insert_ne by done. by apply Hle0.
  - rewrite Hrun. simpl. eexists. split; [done |]. by simpl.
Qed.

(** C9. On every well-formed grid [thanos] returns a grid whose live-cell
    count is at most the count before, and in which every cell that was
    dead is still dead. *)
Theorem thanos_non_increasing (g : grid) :
  grid_ok g ->
  exists g', thanos g = Some g' /\
    (live_count g' <= live_count g)%nat /\
    forall j, data g !! j = Some false -> data g' !! j = Some false.
Proof.
  intros Hok.
  destruct (thanos_culls g Hok) as (g' & Hrun & _ & _ & Hlen & Hle).
  exists g'. split; [done |]. split.
  - by apply live_cells_mono.
  - intros j. by apply dead_stays_dead.
Qed.

Lemma front_set_front d g : front (set_front d g) = g.
Proof. unfold front, set_front. by destruct (first d). Qed.

(** C10. [big_bang] and [thanos] are functions of the grid alone: each
    call sweeps the cells with the draws of a default-constructed engine,
    so on two grids of equal dimensions and equal cells they give the same
    result, and so do the two calls made from any two states of [main],
    whatever the rest of those states (generator, locals, back grid) is. *)
Theorem perturbations_deterministic (g1 g2 : grid) (i1 i2 : input) (w1 w2 : world) :
  grid_ok g1 ->
  width g1 = width g2 -> height g1 = height g2 -> data g1 = data g2 ->
  front_grid w1 = g1 -> front_grid w2 = g2 ->
  big_bang g1 = big_bang g2 /\
  thanos g1 = thanos g2 /\
  big_bang g1
  = Some (Grid (width g1) (height g1)
            (sweep seed_cell default_random_engine (data g1)).2) /\
  thanos g1
  = Some (Grid (width g1) (height g1)
            (sweep cull_cell default_random_engine (data g1)).2) /\
  front_grid <$> perform i1 BigBang w1 = front_grid <$> perform i2 BigBang w2 /\
  front_grid <$> perform i1 Thanos w1 = front_grid <$> perform i2 Thanos w2.
Proof.
  intros Hok Hw Hh Hd H1 H2.
  assert (g1 = g2) as Heq by (destruct g1, g2; simpl in *; congruence).
  rewrite <- Heq in *. split; [done |]. split; [done |].
  split; [by apply big_bang_sweep |]. split; [by apply thanos_sweep |].
  unfold front_grid in *. simpl. unfold game_big_bang, game_thanos.
  rewrite H1, H2. split.
  - destruct (big_bang g1); simpl; [| done]. by rewrite !front_set_front.
  - destruct (thanos g1); simpl; [| done]. by rewrite !front_set_front.
Qed.

End Perturbations.

(** ** Construction and the accessor *)

(** C4. For positive dimensions whose product an [int] holds,
    the constructor allocates exactly [width * height] cells, and each cell
    holds what the storage held: the array is not initialised. *)
Theorem grid_new_cells (w h : Z) (storage : nat -> bool) :
  0 < w -> 0 < h -> w * h <= Int.MAX ->
  exists g, grid_new w h storage = Some g /\
    width g = w /\ height g = h /\
    Z.of_nat (length (data g)) = w * h /\
    forall k, (k < length (data g))%nat -> data g !! k = Some (storage k).
Proof.
  intros Hw Hh Hfit.
  destruct (grid_new_ok w h storage Hw Hh Hfit) as [Hnew Hok].
  eexists. split; [exact Hnew |]. simpl.
  split; [done |]. split; [done |]. split; [apply (data_length _ Hok) |].
  intros k Hk. rewrite length_map, length_seq in Hk.
  rewrite list_lookup_fmap, lookup_seq_lt by done. done.
Qed.


(** ** Game construction *)

Lemma set_cell_ok g x y v :
  grid_ok g ->
  - width g <= x <= Int.MAX - width g ->
  - height g <= y <= Int.MAX - height g ->
  exists g', set_cell g x y v = Some g' /\
    width g' = width g /\ height g' = height g /\ grid_ok g'.
Proof.
  intros Hok Hx Hy.
  destruct (index_canonical g x y Hok Hx Hy) as [Hi Hb].
  pose proof (data_length g Hok) as Hlen.
  unfold set_cell. rewrite Hi. simpl. rewrite store_insert by lia. simpl.
  eexists. split; [done |]. simpl. split; [done |]. split; [done |].
  destruct Hok. constructor; simpl; try done. by rewrite length_insert.
Qed.

Lemma grid_ok_same g g' :
  grid_ok g ->
  width g' = width g -> height g' = height g ->
  length (data g') = length (data g) ->
  grid_ok g'.
Proof.
  intros [Hw Hh Hfit Hlen] Hw' Hh' Hlen'.
  constructor; rewrite ?Hw', ?Hh', ?Hlen'; done.
Qed.

Lemma iterate_preserves {S : Type} (P : S -> Prop)
    (body : Z -> S -> option S) n i step s s' :
  P s ->
  (forall k s0 s1, P s0 -> body k s0 = Some s1 -> P s1) ->
  iterate n i step body s = Some s' -> P s'.
Proof.
  intros Hs Hbody. revert i s Hs.
  induction n as [| n IH]; intros i s Hs Hrun; simpl in Hrun.
  - by injection Hrun as <-.
  - destruct (body i s) as [s1 |] eqn:Hb; [| done].
    apply (IH (i + step) s1); [by apply (Hbody i s) | done].
Qed.

Lemma set_cell_data g x y v :
  grid_ok g ->
  - width g <= x <= Int.MAX - width g ->
  - height g <= y <= Int.MAX - height g ->
  set_cell g x y v
  = Some (Grid (width g) (height g)
            (<[Z.to_nat (x mod width g + (y mod height g) * width g) := v]> (data g))).
Proof.
  intros Hok Hx Hy.
  destruct (index_canonical g x y Hok Hx Hy) as [Hi Hb].
  pose proof (data_length g Hok) as Hlen.
  unfold set_cell. rewrite Hi. simpl. by rewrite store_insert by lia.
Qed.

Section Construction.
Context {E : RandomEngine}.

Lemma game_of_life_new_ok w h seed sa sb :
  0 < w -> 0 < h -> w * h <= Int.MAX -> 2 * w <= Int.MAX -> 2 * h <= Int.MAX ->
  exists g, game_of_life_new w h seed sa sb = Some g /\
    grid_ok (front (buffer g)) /\ grid_ok (back (buffer g)) /\
    width (front (buffer g)) = w /\ height (front (buffer g)) = h /\
    width (back (buffer g)) = w /\ height (back (buffer g)) = h.
Proof.
  intros Hw Hh Hfit Hfw Hfh.
  unfold game_of_life_new, double_buffered_grid_new.
  destruct (grid_new_ok w h sa Hw Hh Hfit) as [-> Hoka].
  destruct (grid_new_ok w h sb Hw Hh Hfit) as [-> Hokb]. simpl.
  unfold Int.mul at 1. rewrite wrap_int_id by (unfold Int.MIN, Int.MAX in *; nia).
  match goal with
  | |- context [for_ne ?n ?body ?s0] =>
      destruct (for_ne_invariant
        (λ (_ : Z) (s : engine * grid),
           grid_ok (s.2) /\ width (s.2) = w /\ height (s.2) = h)
        body n s0) as ([e g] & Hrun & Hokg & Hwg & Hhg); [nia | done | |]
  end.
  - intros k [e0 g0] Hk (Hok0 & Hw0 & Hh0). simpl in *.
    unfold Int.rem, Int.quot.
    destruct (Z.eqb_spec w 0); [lia |]. simpl.
    assert (0 <= k / w < h) as Hq.
    { split; [apply Z.div_pos; lia |]. apply Z.div_lt_upper_bound; nia. }
    pose proof (Z.mod_pos_bound k w Hw) as Hr.
    rewrite Z.rem_mod_nonneg, Z.quot_div_nonneg by lia.
    rewrite wrap_int_id by (unfold Int.MIN, Int.MAX in *; lia).
    destruct (set_cell_ok g0 (k mod w) (k / w)
                (is_zero (uniform_int_distribution 0 frequency e0).1) Hok0)
      as (g1 & -> & Hw1 & Hh1 & Hok1); [rewrite Hw0; lia | rewrite Hh0; lia |].
    simpl. eexists. split; [done |]. simpl. split; [done |]. split; congruence.
  - rewrite Hrun. simpl in *. eexists. split; [done |].
    unfold front, back, swap, set_back. simpl. done.
Qed.

(** The constructor writes the front grid in full, cell [k] from draw [k],
    and leaves the other allocation as the back grid. *)
Lemma game_of_life_new_front (w h seed : Z) (sa sb : nat -> bool) :
  0 < w -> 0 < h -> w * h <= Int.MAX -> 2 * w <= Int.MAX -> 2 * h <= Int.MAX ->
  exists g, game_of_life_new w h seed sa sb = Some g /\
    first (buffer g) = false /\
    width (front (buffer g)) = w /\ height (front (buffer g)) = h /\
    data (front (buffer g)) = map (initial_cell seed) (seq 0 (Z.to_nat (w * h))) /\
    data (back (buffer g)) = map sa (seq 0 (Z.to_nat (w * h))).
Proof.
  intros Hw Hh Hfit Hfw Hfh.
  unfold game_of_life_new, double_buffered_grid_new.
  destruct (grid_new_ok w h sa Hw Hh Hfit) as [-> Hoka].
  destruct (grid_new_ok w h sb Hw Hh Hfit) as [-> Hokb]. simpl.
  unfold Int.mul at 1. rewrite wrap_int_id by (unfold Int.MIN, Int.MAX in *; nia).
  match goal with
  | |- context [for_ne ?n ?body ?s0] =>
      destruct (for_ne_invariant
        (λ k (s : engine * grid),
           s.1 = engine_after (Z.to_nat k) (seeded_random_engine seed) /\
           grid_ok (s.2) /\ width (s.2) = w /\ height (s.2) = h /\
           forall j, (j < Z.to_nat k)%nat ->
             data (s.2) !! j = Some (initial_cell seed j))
        body n s0) as ([e g] & Hrun & _ & Hokg & Hwg & Hhg & Hcells); [nia | | |]
  end.
  - simpl. split; [done |]. split; [exact Hokb |]. split; [done |].
    split; [done |]. intros; lia.
  - intros k [e0 g0] Hk (He & Hok0 & Hw0 & Hh0 & Hcells0). simpl in *.
    unfold Int.rem, Int.quot.
    destruct (Z.eqb_spec w 0); [lia |]. simpl.
    assert (0 <= k / w < h) as Hq.
    { split; [apply Z.div_pos; lia |]. apply Z.div_lt_upper_bound; nia. }
    pose proof (Z.mod_pos_bound k w Hw) as Hr.
    pose proof (Z.div_mod k w) as Hdm.
    rewrite Z.rem_mod_nonneg, Z.quot_div_nonneg by lia.
    rewrite wrap_int_id by (unfold Int.MIN, Int.MAX in *; lia).
    rewrite set_cell_data by (rewrite ?Hw0, ?Hh0; (done || lia)).
    simpl. eexists. split; [done |]. simpl.
    rewrite Hw0, Hh0, !Z.mod_mod, (Z.mod_small (k / w) h) by lia.
    replace (Z.to_nat (k mod w + k / w * w)) with (Z.to_nat k) by lia.
    pose proof (data_length g0 Hok0) as Hlen0.
    split.
    { replace (Z.to_nat (k + 1)) with (Datatypes.S (Z.to_nat k)) by lia.
      simpl. by rewrite He. }
    split.
    { apply (grid_ok_same g0); simpl; try done. apply length_insert. }
    split; [done |]. split; [done |].
    intros j Hj. destruct (decide (j = Z.to_nat k)) as [-> | Hne].
    + rewrite list_lookup_insert_eq by nia.
      unfold initial_cell. by rewrite He.
    + rewrite list_lookup_insert_ne by done. apply Hcells0. lia.
  - rewrite Hrun. simpl in *. eexists. split; [done |]. simpl.
    unfold front, back, swap, set_back. simpl.
    split; [done |]. split; [done |]. split; [done |]. split; [| done].
    pose proof (data_length g Hokg) as Hlen.
    apply list_eq. intros j.
    destruct (decide (j < Z.to_nat (w * h))%nat) as [Hj | Hj].
    + rewrite list_lookup_fmap, lookup_seq_lt by done. simpl. by apply Hcells.
    + rewrite !lookup_ge_None_2; [done | |].
      * rewrite length_map, length_seq. lia.
      * nia.
Qed.



(** C3. [big_bang] draws from [0..10] and the initial randomization, made
    by the constructor of [game_of_life], from [0..frequency] = [0..3],
    each making a cell alive when the draw is 0: the per-cell
    probabilities are 1/11 and 1/4.  On every well-formed grid [big_bang]
    returns; it visits the cells in order, gives each dead cell the next
    draw from [0..10] and sets it alive iff that draw is 0, and every cell
    alive before is alive after.  The constructor gives cell [k] of the
    board draw [k] from [0..3] and sets it alive iff that draw is 0. *)
Theorem big_bang_seeds (g : grid) (w h seed : Z) (sa sb : nat -> bool) :
  grid_ok g ->
  0 < w -> 0 < h -> w * h <= Int.MAX -> 2 * w <= Int.MAX -> 2 * h <= Int.MAX ->
  big_bang_probability = (1 # 11)%Q /\
  initial_probability = (1 # 4)%Q /\
  (exists g', big_bang g = Some g' /\
     data g' = (sweep seed_cell default_random_engine (data g)).2 /\
     forall j, data g !! j = Some true -> data g' !! j = Some true) /\
  (exists board, game_of_life_new w h seed sa sb = Some board /\
     data (front (buffer board))
     = map (λ k, is_zero (uniform_int_distribution 0 frequency
                            (engine_after k (seeded_random_engine seed))).1)
           (seq 0 (Z.to_nat (w * h)))) /\
  big_bang_probability = probability 0 big_bang_max is_zero /\
  initial_probability = probability 0 frequency is_zero.
Proof.
  intros Hok Hw Hh Hfit Hfw Hfh.
  split; [vm_compute; reflexivity |]. split; [vm_compute; reflexivity |].
  split; [| split; [| by split]].
  - destruct (big_bang_keeps g Hok) as (g' & Hrun & _ & _ & _ & Hkeep).
    exists g'. split; [done |]. split; [| done].
    rewrite (big_bang_sweep g Hok) in Hrun. by injection Hrun as <-.
  - destruct (game_of_life_new_front w h seed sa sb Hw Hh Hfit Hfw Hfh)
      as (board & Hnew & _ & _ & _ & Hdata & _).
    exists board. by split.
Qed.

End Construction.

(** ** The whole loop returns *)

Lemma invert_total g :
  grid_ok g ->
  exists g', invert g = Some g' /\
    width g' = width g /\ height g' = height g /\
    length (data g') = length (data g).
Proof.
  intros Hok. unfold invert. rewrite (cell_count g Hok).
  match goal with
  | |- context [for_lt ?n ?body ?s0] =>
      destruct (for_lt_invariant
        (λ (_ : Z) (d : list bool), length d = length (data g))
        body n s0) as (d & Hrun & Hlen); [lia | done | |]
  end.
  - intros k d0 Hk Hlen0.
    destruct (load_is_Some d0 k) as [c Hc]; [lia |].
    rewrite Hc. simpl. rewrite store_insert by lia.
    eexists. split; [done |]. by rewrite length_insert.
  - rewrite Hrun. simpl. eexists. by split.
Qed.

Lemma back_set_front d f : back (set_front d f) = back d.
Proof. unfold back, set_front. by destruct (first d). Qed.

Lemma playable_set_front g f :
  playable g -> grid_ok f ->
  width f = width (front (buffer g)) ->
  height f = height (front (buffer g)) ->
  playable (Game (set_front (buffer g) f)).
Proof.
  intros [[Hf Hb Hw Hh [Hfw Hfh]] Hev] Hokf Hwf Hhf.
  split; [constructor |]; simpl;
    rewrite ?front_set_front, ?back_set_front, ?Hwf, ?Hhf; try done.
  split; by rewrite ?Hwf, ?Hhf.
Qed.

Lemma render_total g : playable g -> is_Some (render g).
Proof.
  intros [[Hf _ _ _ [Hfw Hfh]] Hev]. unfold render.
  set (gr := front (buffer g)) in *.
  pose proof (width_pos gr Hf) as Hw. pose proof (height_pos gr Hf) as Hh.
  pose proof (size_fits gr Hf) as Hsz.
  apply Z.even_spec in Hev as [half Hhalf].
  unfold Int.rem. simpl.
  replace (Z.rem (height gr) 2) with 0
    by (rewrite Z.rem_mod_nonneg by lia; rewrite Hhalf, Z.mul_comm, Z_mod_mult; done).
  simpl. unfold for_ne_by2.
  destruct (Z.ltb_spec (height gr) 0); [lia |].
  replace (Z.even (height gr)) with true
    by (symmetry; apply Z.even_spec; by exists half).
  simpl.
  match goal with
  | |- is_Some (iterate ?n 0 2 ?body ?s0) =>
      destruct (iterate_invariant (λ _ (_ : list (list glyph)), True) 2 body n 0 s0)
        as (rows & -> & _); [done | | done]
  end.
  intros k rows Hk _.
  assert (0 <= Z.of_nat k < height gr / 2) as Hk' by lia.
  assert (0 <= 0 + Z.of_nat k * 2 /\ 0 + Z.of_nat k * 2 + 1 < height gr) as [Hy0 Hy1].
  { rewrite Hhalf in *. rewrite (Z.mul_comm 2 half), Z.div_mul in Hk' by lia. lia. }
  match goal with
  | |- context [for_ne ?n ?body ?s0] =>
      destruct (for_ne_invariant (λ _ (_ : list glyph), True) body n s0)
        as (row & -> & _); [lia | done | |]
  end.
  - intros x line Hx _.
    destruct (cell_canonical gr x (0 + Z.of_nat k * 2) Hf) as [_ [top ->]];
      [lia | lia |].
    unfold Int.add. rewrite wrap_int_id by (unfold Int.MIN, Int.MAX in *; lia).
    destruct (cell_canonical gr x (0 + Z.of_nat k * 2 + 1) Hf) as [_ [bottom ->]];
      [lia | lia |].
    simpl. by eexists.
  - simpl. by eexists.
Qed.

Section Totality.
Context {E : RandomEngine}.

Lemma new_game_playable e seed sa sb :
  env_ok e -> exists g, new_game e seed sa sb = Some g /\ playable g.
Proof.
  intros (w & h & Hwe & Hhe & Hw & Hh & Hfh & Hfit).
  unfold new_game, new_game_size. rewrite Hwe, Hhe. simpl.
  unfold Int.mul at 1. rewrite wrap_int_id by (unfold Int.MIN, Int.MAX in *; lia).
  destruct (game_of_life_new_ok w (h * 2) seed sa sb)
    as (g & Hg & Hokf & Hokb & Hfw & Hfh' & Hbw & Hbh); [lia | lia | lia | nia | lia |].
  exists g. split; [done |]. split.
  - constructor; try done; [congruence | congruence |].
    split; rewrite ?Hfw, ?Hfh'; nia.
  - rewrite Hfh', Z.mul_comm. apply Z.even_spec. by exists h.
Qed.

(** Every call the loop makes returns on a playable game and leaves a
    playable game. *)
Lemma perform_total i c (w : world) :
  env_ok (env i) -> playable (game w) ->
  exists w', perform i c w = Some w' /\ playable (game w').
Proof.
  intros Henv Hplay. destruct c; simpl.
  - destruct (new_game_playable (env i) (clock i) (storage_a i) (storage_b i) Henv)
      as (g & -> & Hg). simpl. by eexists.
  - destruct (render_total (game w) Hplay) as [sc ->]. simpl. by eexists.
  - by eexists.
  - unfold game_big_bang. pose proof Hplay as [[Hf _ _ _ _] _].
    destruct (big_bang_keeps _ Hf) as (f & -> & Hw & Hh & Hlen & _). simpl.
    eexists. split; [done |]. simpl.
    apply playable_set_front; try done. by apply (grid_ok_same _ _ Hf).
  - pose proof Hplay as [Hok Hev].
    destruct (tick_advances w0 (game w) Hok) as (g & -> & Hg & Hback & _). simpl.
    eexists. split; [done |]. simpl. split; [done |].
    by rewrite (same_height g Hg), Hback.
  - unfold game_invert. pose proof Hplay as [[Hf _ _ _ _] _].
    destruct (invert_total _ Hf) as (f & -> & Hw & Hh & Hlen). simpl.
    eexists. split; [done |]. simpl.
    apply playable_set_front; try done. by apply (grid_ok_same _ _ Hf).
  - unfold game_thanos. pose proof Hplay as [[Hf _ _ _ _] _].
    destruct (thanos_culls _ Hf) as (f & -> & Hw & Hh & Hlen & _). simpl.
    eexists. split; [done |]. simpl.
    apply playable_set_front; try done. by apply (grid_ok_same _ _ Hf).
Qed.

Lemma perform_all_total i cs (w : world) :
  env_ok (env i) -> playable (game w) ->
  exists w', perform_all i cs w = Some w' /\ playable (game w').
Proof.
  intros Henv. revert w. induction cs as [| c cs IH]; intros w Hplay; simpl.
  - by exists w.
  - destruct (perform_total i c w Henv Hplay) as (w1 & -> & Hplay1). simpl.
    by apply IH.
Qed.

(** The loop returns for every session whose environments are sound, and
    the game stays playable. *)
Lemma main_loop_total inputs (w : world) :
  Forall (λ i, env_ok (env i)) inputs -> playable (game w) ->
  exists w', main_loop inputs w = Some w' /\ playable (game w').
Proof.
  intros Henvs. revert w. induction Henvs as [| i rest Henv _ IH]; intros w Hplay.
  - by exists w.
  - cbn [main_loop]. unfold main_iteration. cbv zeta.
    destruct (perform_all_total i
      (iteration (key i) (uniform_int_distribution 0 100000 (generator w)).1 (ctl w)).1.2
      w Henv Hplay) as (w1 & -> & Hplay1). simpl.
    match goal with
    | |- context [if ?stop then _ else _] => destruct stop
    end.
    + by eexists.
    + by apply IH.
Qed.

End Totality.

(** ** The control loop *)

Lemma iteration_tick key rs c :
  tick_reachable (tick_ms c) ->
  tick_reachable (tick_ms (iteration key rs c).1.1).
Proof.
  unfold tick_reachable, iteration. intros Ht.
  destruct (key =? chr "-"), (key =? chr "+");
    repeat (destruct Ht as [<- | Ht]; [vm_compute; tauto |]); destruct Ht.
Qed.

Lemma control_run_tick events c :
  tick_reachable (tick_ms c) ->
  tick_reachable (tick_ms (control_run events c)).
Proof.
  revert c. induction events as [| ev rest IH]; intros c Ht; [done |].
  pose proof (iteration_tick (ev.1) (ev.2) c Ht) as Hnext.
  cbn [control_run]. cbv zeta.
  destruct (iteration (ev.1) (ev.2) c).2; [done | by apply IH].
Qed.

Section MainLoop.
Context {E : RandomEngine}.

(** The loop on the whole state keeps the tick interval reachable. *)
Lemma main_loop_tick inputs (w w' : world) :
  tick_reachable (tick_ms (ctl w)) ->
  main_loop inputs w = Some w' ->
  tick_reachable (tick_ms (ctl w')).
Proof.
  revert w. induction inputs as [| i rest IH]; intros w Ht Hrun; simpl in Hrun.
  - by injection Hrun as <-.
  - destruct (main_iteration i w) as [[w1 stop] |] eqn:Hit; simpl in Hrun; [| done].
    assert (tick_reachable (tick_ms (ctl w1))) as Ht1.
    { unfold main_iteration in Hit.
      destruct (perform_all i _ w) as [w2 |]; simpl in Hit; [| done].
      injection Hit as <- _.
      exact (iteration_tick (key i)
               (uniform_int_distribution 0 100000 (generator w)).1 (ctl w) Ht). }
    destruct stop; [by injection Hrun as <- | by apply (IH w1)].
Qed.

End MainLoop.

(** C7. From the initial state [tick_ms = min_tick_ms], after the passes
    of the loop for any sequence of keys (any mix of ['-'], ['+'] and
    others) and draws, [tick_ms] is within [min_tick_ms .. max_tick_ms],
    that is 8 .. 1024. *)
Theorem tick_ms_clamped (events : list (Z * Z)) :
  min_tick_ms <= tick_ms (control_run events initial_control) <= max_tick_ms /\
  min_tick_ms = 8 /\ max_tick_ms = 1024.
Proof.
  split; [| done].
  assert (tick_reachable (tick_ms (control_run events initial_control))) as Ht.
  { apply control_run_tick. vm_compute. tauto. }
  unfold tick_reachable in Ht. unfold min_tick_ms, max_tick_ms.
  repeat (destruct Ht as [<- | Ht]; [lia |]). destruct Ht.
Qed.

(** C6. In a pass whose key is the resize signal or ['r'] the
    buffer is rebuilt and rendered first; the speed, the wrap flag and the
    pause flag are unchanged and the loop is not left.  The rest of the
    pass is not bypassed: while running, the perturbation the draw selects
    and the generation transition with its render follow in the same
    pass; while paused nothing follows. *)
Theorem resize_iteration (key rs : Z) (c : control) :
  key = KEY_RESIZE \/ key = chr "r" ->
  iteration key rs c
  = (c,
     [NewGame; Render] ++
     (if running c then
        (if rs =? 0 then [BigBang; Tick (wrap c); Render] else []) ++
        (if rs =? 1 then [Invert; Render] else []) ++
        (if rs =? 2 then [Thanos; Render] else []) ++
        [Tick (wrap c); Render]
      else []),
     false).
Proof.
  intros [-> | ->]; destruct c as [t [] w]; unfold iteration; simpl;
    destruct (rs =? 0), (rs =? 1), (rs =? 2); reflexivity.
Qed.

(** C2. When [big_bang] is selected in a pass (by ['b'] or,
    while running, by draw 0) it is at once followed by a generation
    transition and a render, whatever [running] is.  When [invert] or
    [thanos] is selected (by ['i'], ['t'] or, while running, by draw 1, 2)
    it is at once followed by a render only, and a generation transition
    comes later in the pass exactly when [running] is true: with ['i'] or
    ['t'] pressed while paused the pass makes no generation transition. *)
Theorem perturbation_follow_up (key rs : Z) (c : control) :
  let r := iteration key rs c in
  let c' := r.1.1 in
  let calls := r.1.2 in
  (key = chr "b" \/ (running c' = true /\ rs = 0) ->
     exists rest,
       calls_after is_big_bang calls = Some (Tick (wrap c') :: Render :: rest)) /\
  (key = chr "i" \/ (running c' = true /\ rs = 1) ->
     exists rest,
       calls_after is_invert calls = Some (Render :: rest) /\
       ticks rest = if running c' then 1%nat else 0%nat) /\
  (key = chr "t" \/ (running c' = true /\ rs = 2) ->
     calls_after is_thanos calls
     = Some (Render :: if running c' then [Tick (wrap c'); Render] else [])) /\
  (key = chr "i" \/ key = chr "t" -> running c = false -> ticks calls = 0%nat).
Proof.
  destruct c as [t run w]. simpl.
  repeat split.
  - intros [-> | [Hrun ->]].
    + unfold iteration. simpl. eexists. reflexivity.
    + unfold iteration in *. simpl in *. rewrite Hrun. simpl.
      rewrite orb_true_r.
      destruct ((key =? KEY_RESIZE) || (key =? chr "r")),
        ((key =? chr "-") && (t <? max_tick_ms)); simpl;
        match goal with
        | |- context [if ?b then [SetTimeout _] else []] => destruct b
        end; simpl; eexists; reflexivity.
  - intros [-> | [Hrun ->]].
    + unfold iteration. simpl. destruct run, (rs =? 0), (rs =? 2); simpl;
        eexists; (split; [reflexivity |]); reflexivity.
    + unfold iteration in *. simpl in *. rewrite Hrun. simpl.
      rewrite orb_true_r.
      destruct ((key =? KEY_RESIZE) || (key =? chr "r")),
        ((key =? chr "-") && (t <? max_tick_ms)); simpl;
        match goal with
        | |- context [if ?b then [SetTimeout _] else []] => destruct b
        end; simpl; destruct (key =? chr "b"), (key =? chr "t"); simpl;
        eexists; (split; [reflexivity |]); reflexivity.
  - intros [-> | [Hrun ->]].
    + unfold iteration. simpl. destruct run, (rs =? 0), (rs =? 1); reflexivity.
    + unfold iteration in *. simpl in *. rewrite Hrun. simpl.
      rewrite orb_true_r.
      destruct ((key =? KEY_RESIZE) || (key =? chr "r")),
        ((key =? chr "-") && (t <? max_tick_ms)); simpl;
        match goal with
        | |- context [if ?b then [SetTimeout _] else []] => destruct b
        end; simpl; destruct (key =? chr "b"), (key =? chr "i"); reflexivity.
  - intros [-> | ->] ->; reflexivity.
Qed.

(** * Concrete runs *)

(** Closed comparisons and equations, by evaluation. *)
Ltac evaluate :=
  vm_compute;
  first [ reflexivity
        | let H := fresh in intros H; discriminate H
        | split; [ reflexivity || (let H := fresh in intros H; discriminate H)
                 | reflexivity || (let H := fresh in intros H; discriminate H) ] ].

Ltac grid_is_ok := constructor; evaluate.

(** ** The rule on the sample grids *)

Example blinker_turns :
  next_generation blinker (all_dead 5 5) true = Some blinker_flat /\
  next_generation blinker (all_dead 5 5) false = Some blinker_flat /\
  next_generation blinker_flat (all_dead 5 5) true = Some blinker /\
  next_generation blinker_flat (all_dead 5 5) false = Some blinker.
Proof. repeat split; reflexivity. Qed.

Example square_block_still :
  next_generation square_block (all_dead 4 4) true = Some square_block.
Proof. reflexivity. Qed.

Example edge_pair_diverges :
  Spec.live_neighbours edge_pair true 0 0 = 2 /\
  Spec.live_neighbours edge_pair false 0 0 = 1 /\
  (next_generation edge_pair (all_dead 3 3) true ≫= λ g, cell g 0 0) = Some true /\
  (next_generation edge_pair (all_dead 3 3) false ≫= λ g, cell g 0 0) = Some false.
Proof. repeat split; reflexivity. Qed.

Example invert_twice :
  (invert square_block ≫= invert) = Some square_block.
Proof. reflexivity. Qed.

Example swap_twice d : swap (swap d) = d.
Proof. destruct d as [[] ga gb]; reflexivity. Qed.

Example render_small_game :
  (@new_game lcg_engine small_env 0 dirty_storage dirty_storage ≫= render)
  = Some [[Blank; Lower; Lower; Blank]; [Lower; Blank; Upper; Blank]].
Proof. reflexivity. Qed.

(** ** The transition on the edge pair *)

Lemma next_generation_rule_witness :
  grid_ok edge_pair /\ grid_ok (all_dead 3 3) /\ coords_fit edge_pair /\
  width edge_pair = width (all_dead 3 3) /\
  height edge_pair = height (all_dead 3 3) /\
  exists out',
    next_generation edge_pair (all_dead 3 3) false = Some out' /\
    width out' = width (all_dead 3 3) /\ height out' = height (all_dead 3 3) /\
    length (data out') = length (data (all_dead 3 3)) /\
    forall x y, 0 <= x < width edge_pair -> 0 <= y < height edge_pair ->
      cell out' x y
      = Some (Spec.rule (Spec.alive edge_pair x y)
                (Spec.live_neighbours edge_pair false x y)).
Proof.
  assert (grid_ok edge_pair) as H1 by grid_is_ok.
  assert (grid_ok (all_dead 3 3)) as H2 by grid_is_ok.
  assert (coords_fit edge_pair) as H3 by (split; evaluate).
  repeat (split; [assumption || reflexivity |]).
  apply (next_generation_rule edge_pair (all_dead 3 3) false H1 H2 H3);
    reflexivity.
Defined.

(** ** Perturbation keys while paused *)

(** With ['i'] pressed while paused the pass inverts and renders, and makes
    no generation transition: the front grid afterwards is the inverted
    square, not its next generation (which is all dead). *)
Lemma invert_while_paused_no_tick :
  iteration (chr "i") 5 paused = (paused, [Invert; Render], false) /\
  calls_after is_invert [Invert; Render] = Some [Render] /\
  ticks [Invert; Render] = 0%nat /\
  (λ r, front_grid (r.1)) <$> @main_iteration lcg_engine invert_key_input paused_world
  = Some square_hole /\
  invert square_block = Some square_hole /\
  next_generation square_hole (all_dead 4 4) true = Some (all_dead 4 4).
Proof. repeat split; reflexivity. Qed.

Lemma perturbation_follow_up_witness :
  (exists rest,
     calls_after is_big_bang (iteration (chr "b") 5 paused).1.2
     = Some (Tick true :: Render :: rest)) /\
  ticks (iteration (chr "t") 5 paused).1.2 = 0%nat.
Proof.
  destruct (perturbation_follow_up (chr "b") 5 paused) as (Hb & _).
  destruct (perturbation_follow_up (chr "t") 5 paused) as (_ & _ & _ & Ht).
  split.
  - apply Hb. left. reflexivity.
  - apply Ht; [right |]; reflexivity.
Defined.

(** ** Seeding against the initial randomization *)

(** The two per-cell probabilities differ: 1/11 against 1/4.  On the same
    draws of the same engine [big_bang] brings cells 2 and 7 of a dead
    4 x 4 grid to life, the constructor of [game_of_life] cells 5, 6, 10
    and 12 of its board. *)
Lemma big_bang_probability_differs :
  ~ (big_bang_probability == initial_probability)%Q /\
  big_bang_probability = probability 0 big_bang_max is_zero /\
  initial_probability = probability 0 frequency is_zero /\
  @big_bang lcg_engine (all_dead 4 4)
  = Some (Grid 4 4 [false; false; true;  false;
                    false; false; false; true;
                    false; false; false; false;
                    false; false; false; false]) /\
  (λ g, data (front (buffer g))) <$>
    @game_of_life_new lcg_engine 4 4 0 clean_storage clean_storage
  = Some [false; false; false; false;
          false; true;  true;  false;
          false; false; true;  false;
          true;  false; false; false].
Proof.
  split; [vm_compute; discriminate |]. repeat split; reflexivity.
Qed.

Lemma big_bang_seeds_witness :
  grid_ok square_block /\
  0 < 4 /\ 4 * 4 <= Int.MAX /\ 2 * 4 <= Int.MAX /\
  big_bang_probability = (1 # 11)%Q /\
  initial_probability = (1 # 4)%Q /\
  (exists g', @big_bang lcg_engine square_block = Some g' /\
     data g' = (@sweep lcg_engine seed_cell default_random_engine (data square_block)).2 /\
     forall j, data square_block !! j = Some true -> data g' !! j = Some true) /\
  (exists board,
     @game_of_life_new lcg_engine 4 4 0 dirty_storage clean_storage = Some board /\
     data (front (buffer board))
     = map (λ k, is_zero (@uniform_int_distribution lcg_engine 0 frequency
                            (@engine_after lcg_engine k
                               (@seeded_random_engine lcg_engine 0))).1)
           (seq 0 (Z.to_nat (4 * 4)))) /\
  big_bang_probability = probability 0 big_bang_max is_zero /\
  initial_probability = probability 0 frequency is_zero.
Proof.
  assert (grid_ok square_block) as H1 by grid_is_ok.
  assert (0 < 4) as H2 by evaluate.
  assert (4 * 4 <= Int.MAX) as H3 by evaluate.
  assert (2 * 4 <= Int.MAX) as H4 by evaluate.
  split; [assumption |]. split; [assumption |].
  split; [assumption |]. split; [assumption |].
  apply (@big_bang_seeds lcg_engine square_block 4 4 0 dirty_storage clean_storage
           H1 H2 H2 H3 H4 H4).
Defined.

(** ** Construction on used storage *)

(** Built on storage that holds [true], a 2 x 2 grid starts with live
    cells. *)
Lemma grid_new_not_dead :
  grid_new 2 2 dirty_storage = Some (Grid 2 2 [true; true; true; true]) /\
  cell (Grid 2 2 [true; true; true; true]) 0 0 = Some true.
Proof. split; reflexivity. Qed.

Lemma grid_new_cells_witness :
  0 < 2 /\ 0 < 3 /\ 2 * 3 <= Int.MAX /\
  exists g, grid_new 2 3 dirty_storage = Some g /\
    width g = 2 /\ height g = 3 /\
    Z.of_nat (length (data g)) = 2 * 3 /\
    forall k, (k < length (data g))%nat -> data g !! k = Some (dirty_storage k).
Proof.
  assert (0 < 2) as H1 by lia. assert (0 < 3) as H2 by lia.
  assert (2 * 3 <= Int.MAX) as H3 by evaluate.
  repeat (split; [assumption |]).
  apply (grid_new_cells 2 3 dirty_storage H1 H2 H3).
Defined.

(** ** Games of size zero and below *)



(** ** The resize pass *)

(** With ['r'] pressed while running, the pass rebuilds and renders, and
    then also makes a generation transition and renders again: the front
    grid afterwards is the next generation of the board just built. *)
Lemma resize_then_tick :
  iteration (chr "r") 5 initial_control
  = (initial_control, [NewGame; Render; Tick true; Render], false) /\
  ticks [NewGame; Render; Tick true; Render] = 1%nat /\
  (λ g, front (buffer g)) <$>
    @new_game lcg_engine small_env 0 clean_storage clean_storage
  = Some (Grid 4 4 [false; false; false; false;
                    false; true;  true;  false;
                    false; false; true;  false;
                    true;  false; false; false]) /\
  (λ r, front_grid (r.1)) <$> @main_iteration lcg_engine new_game_key_input world_one
  = Some (Grid 4 4 [false; true;  false; false;
                    false; true;  true;  false;
                    false; false; true;  true;
                    false; false; false; false]).
Proof. repeat split; reflexivity. Qed.

Lemma resize_iteration_witness :
  (KEY_RESIZE = KEY_RESIZE \/ KEY_RESIZE = chr "r") /\
  iteration KEY_RESIZE 2 initial_control
  = (initial_control,
     [NewGame; Render; Thanos; Render; Tick true; Render], false).
Proof.
  assert (KEY_RESIZE = KEY_RESIZE \/ KEY_RESIZE = chr "r") as H1
    by (left; reflexivity).
  split; [assumption |].
  exact (resize_iteration KEY_RESIZE 2 initial_control H1).
Defined.

(** ** The accessor far outside the grid *)



(** ** Culling the square *)

Lemma thanos_non_increasing_witness :
  grid_ok square_block /\
  exists g', @thanos lcg_engine square_block = Some g' /\
    (live_count g' <= live_count square_block)%nat /\
    forall j, data square_block !! j = Some false -> data g' !! j = Some false.
Proof.
  assert (grid_ok square_block) as H1 by grid_is_ok.
  split; [assumption |].
  apply (@thanos_non_increasing lcg_engine square_block H1).
Defined.

(** ** The same perturbation from two states *)

Lemma perturbations_deterministic_witness :
  grid_ok square_block /\
  front_grid world_one = square_block /\
  front_grid world_two = square_block /\
  @big_bang lcg_engine square_block = @big_bang lcg_engine square_block /\
  @thanos lcg_engine square_block = @thanos lcg_engine square_block /\
  @big_bang lcg_engine square_block
  = Some (Grid 4 4 (@sweep lcg_engine seed_cell default_random_engine
                      (data square_block)).2) /\
  @thanos lcg_engine square_block
  = Some (Grid 4 4 (@sweep lcg_engine cull_cell default_random_engine
                      (data square_block)).2) /\
  front_grid <$> @perform lcg_engine no_key_input BigBang world_one
  = front_grid <$> @perform lcg_engine other_input BigBang world_two /\
  front_grid <$> @perform lcg_engine no_key_input Thanos world_one
  = front_grid <$> @perform lcg_engine other_input Thanos world_two.
Proof.
  assert (grid_ok square_block) as H1 by grid_is_ok.
  split; [assumption |]. split; [reflexivity |]. split; [reflexivity |].
  apply (@perturbations_deterministic lcg_engine square_block square_block
           no_key_input other_input world_one world_two
           H1 eq_refl eq_refl eq_refl eq_refl eq_refl).
Defined.

(** * Further properties of the code *)

(** ** invert, big_bang and thanos as a whole *)

Lemma invert_map g :
  grid_ok g ->
  invert g = Some (Grid (width g) (height g) (map negb (data g))).
Proof.
  intros Hok. unfold invert. rewrite (cell_count g Hok).
  match goal with
  | |- context [for_lt ?n ?body ?s0] =>
      destruct (for_lt_invariant
        (λ k (d : list bool),
           d = map negb (take (Z.to_nat k) (data g)) ++ drop (Z.to_nat k) (data g))
        body n s0) as (d & Hrun & Hd); [lia | done | |]
  end.
  - intros k d0 Hk ->.
    destruct (lookup_lt_is_Some_2 (data g) (Z.to_nat k)) as [c Hc]; [lia |].
    assert (length (map negb (take (Z.to_nat k) (data g))) = Z.to_nat k) as Hlen.
    { rewrite length_map, length_take_le; lia. }
    rewrite load_lookup by lia.
    rewrite lookup_app_r by lia. rewrite Hlen, Nat.sub_diag.
    rewrite lookup_drop, Nat.add_0_r, Hc. simpl.
    rewrite store_insert.
    2: { rewrite length_app, Hlen, length_drop. lia. }
    eexists. split; [done |].
    replace (Z.to_nat (k + 1)) with (Datatypes.S (Z.to_nat k)) by lia.
    rewrite (take_S_r _ _ _ Hc), map_app. simpl.
    rewrite (drop_S _ _ _ Hc).
    rewrite insert_app_r_alt by lia. rewrite Hlen, Nat.sub_diag. simpl.
    by rewrite <- app_assoc.
  - rewrite Hrun, Hd, Nat2Z.id, take_ge, drop_ge, app_nil_r by lia. done.
Qed.

Lemma map_negb_negb (d : list bool) : map negb (map negb d) = d.
Proof. induction d as [| c d IH]; simpl; [done |]. by rewrite negb_involutive, IH. Qed.

Lemma live_dead_split (d : list bool) :
  (length (filter (λ c, c = true) (map negb d))
   + length (filter (λ c, c = true) d) = length d)%nat.
Proof.
  induction d as [| c d IH]; simpl; [done |].
  rewrite !filter_cons. destruct c; simpl; lia.
Qed.

(** X1. On a well-formed grid [invert] returns the grid with every cell
    complemented and the dimensions kept; the live cells of the result
    number the dead cells of the argument; and inverting the result gives
    the argument back. *)
Theorem invert_complements (g : grid) :
  grid_ok g ->
  exists g', invert g = Some g' /\
    width g' = width g /\ height g' = height g /\
    data g' = map negb (data g) /\
    (live_count g' + live_count g = length (data g))%nat /\
    invert g' = Some g.
Proof.
  intros Hok. rewrite (invert_map g Hok). eexists. split; [done |]. simpl.
  split; [done |]. split; [done |]. split; [done |].
  split; [apply live_dead_split |].
  rewrite invert_map.
  - simpl. rewrite map_negb_negb. by destruct g.
  - apply (grid_ok_same g); simpl; try done. by rewrite length_map.
Qed.

Section WholePerturbations.
Context {E : RandomEngine}.

(** X2. On a well-formed grid [big_bang] returns a grid of the same
    dimensions and array length whose live-cell count is at least the
    count before. *)
Theorem big_bang_non_decreasing (g : grid) :
  grid_ok g ->
  exists g', big_bang g = Some g' /\
    width g' = width g /\ height g' = height g /\
    length (data g') = length (data g) /\
    (live_count g <= live_count g')%nat.
Proof.
  intros Hok.
  destruct (big_bang_keeps g Hok) as (g' & Hrun & Hw & Hh & Hlen & Hkeep).
  exists g'. repeat (split; [done |]). by apply live_cells_mono.
Qed.

Lemma sweep_cull_dead e (d : list bool) :
  (forall j c, d !! j = Some c -> c = false) ->
  sweep cull_cell e d = (e, d).
Proof.
  revert e. induction d as [| c d IH]; intros e Hdead; simpl; [done |].
  assert (c = false) as -> by apply (Hdead 0%nat c eq_refl).
  simpl. rewrite IH; [done |]. intros j c Hj. apply (Hdead (Datatypes.S j) c Hj).
Qed.

Lemma sweep_seed_alive e (d : list bool) :
  (forall j c, d !! j = Some c -> c = true) ->
  sweep seed_cell e d = (e, d).
Proof.
  revert e. induction d as [| c d IH]; intros e Hlive; simpl; [done |].
  assert (c = true) as -> by apply (Hlive 0%nat c eq_refl).
  simpl. rewrite IH; [done |]. intros j c Hj. apply (Hlive (Datatypes.S j) c Hj).
Qed.

(** X3. [thanos] leaves a well-formed grid without live cells as it is,
    and [big_bang] leaves a well-formed grid without dead cells as it
    is. *)
Theorem perturbation_fixed_points (g : grid) :
  grid_ok g ->
  ((forall j c, data g !! j = Some c -> c = false) -> thanos g = Some g) /\
  ((forall j c, data g !! j = Some c -> c = true) -> big_bang g = Some g).
Proof.
  intros Hok. split; intros Hall.
  - rewrite (thanos_sweep g Hok), sweep_cull_dead by done. by destruct g.
  - rewrite (big_bang_sweep g Hok), sweep_seed_alive by done. by destruct g.
Qed.

End WholePerturbations.

(** ** The accessor as a store *)

(** X4. On a well-formed grid, writing [v] through the accessor at an
    in-range position returns a well-formed grid of the same dimensions in
    which that position reads [v] and every other in-range position reads
    what it read before. *)
Theorem set_cell_then_cell (g : grid) (x y : Z) (v : bool) :
  grid_ok g -> coords_fit g ->
  0 <= x < width g -> 0 <= y < height g ->
  exists g', set_cell g x y v = Some g' /\
    grid_ok g' /\ width g' = width g /\ height g' = height g /\
    cell g' x y = Some v /\
    forall x' y', 0 <= x' < width g -> 0 <= y' < height g ->
      (x', y') <> (x, y) -> cell g' x' y' = cell g x' y'.
Proof.
  intros Hok Hfit Hx Hy.
  assert (2 * width g <= Int.MAX /\ 2 * height g <= Int.MAX) as [Hfw Hfh] by done.
  pose proof (data_length g Hok) as Hlen.
  destruct (index_canonical g x y Hok) as [Hi Hb]; [lia | lia |].
  rewrite !Z.mod_small in Hi, Hb by lia.
  unfold set_cell. rewrite Hi. simpl. rewrite store_insert by lia. simpl.
  eexists. split; [done |].
  set (g' := Grid (width g) (height g) (<[Z.to_nat (x + y * width g) := v]> (data g))).
  assert (grid_ok g') as Hok'.
  { apply (grid_ok_same g); try done. apply length_insert. }
  assert (coords_fit g') as Hfit' by done.
  split; [done |]. split; [done |]. split; [done |]. split.
  - destruct (cell_inside g' x y Hok' Hfit') as [_ ->]; [done | done |].
    simpl. apply list_lookup_insert_eq. lia.
  - intros x' y' Hx' Hy' Hne.
    destruct (cell_inside g' x' y' Hok' Hfit') as [_ ->]; [done | done |].
    destruct (cell_inside g x' y' Hok Hfit) as [_ ->]; [done | done |].
    simpl. apply list_lookup_insert_ne. intros Heq.
    destruct (position_inj (width g) x y x' y'); [lia | lia | lia | lia | | congruence].
    assert (0 <= x' + y' * width g) by nia. lia.
Qed.

(** X5. On a well-formed grid the accessor is toroidal for the positions
    one step outside: column [-1] reads column [width - 1], column [width]
    reads column 0, row [-1] reads row [height - 1] and row [height] reads
    row 0; a whole width or height below an in-range position reads that
    position. *)
Theorem cell_torus (g : grid) (x y : Z) :
  grid_ok g -> coords_fit g ->
  0 <= x < width g -> 0 <= y < height g ->
  cell g (-1) y = cell g (width g - 1) y /\
  cell g (width g) y = cell g 0 y /\
  cell g x (-1) = cell g x (height g - 1) /\
  cell g x (height g) = cell g x 0 /\
  cell g (x - width g) (y - height g) = cell g x y.
Proof.
  intros Hok Hfit Hx Hy.
  assert (2 * width g <= Int.MAX /\ 2 * height g <= Int.MAX) as [Hfw Hfh] by done.
  assert (forall u v u' v',
            - width g <= u <= width g -> - height g <= v <= height g ->
            0 <= u' < width g -> 0 <= v' < height g ->
            u mod width g = u' -> v mod height g = v' ->
            cell g u v = cell g u' v') as Hsame.
  { intros u v u' v' Hu Hv Hu' Hv' Hum Hvm.
    destruct (cell_canonical g u v Hok) as [-> _]; [lia | lia |].
    destruct (cell_canonical g u' v' Hok) as [-> _]; [lia | lia |].
    rewrite Hum, Hvm, !Z.mod_small by lia. done. }
  assert (forall m u, 0 < m -> 0 <= u < m -> (u - m) mod m = u) as Hdown.
  { intros m u Hm Hu. rewrite <- (Z.mod_small u m) at 2 by lia.
    rewrite <- (Z_mod_plus_full (u - m) 1 m). f_equal. lia. }
  assert (forall m, 0 < m -> m mod m = 0) as Hfull
    by (intros m Hm; apply Z_mod_same_full).
  repeat split; apply Hsame; try lia;
    rewrite ?Hfull, ?Hdown by lia; try rewrite Z.mod_small by lia; try lia.
  - replace (-1) with (width g - 1 - width g) by lia. rewrite Hdown; lia.
  - replace (-1) with (height g - 1 - height g) by lia. rewrite Hdown; lia.
Qed.

(** ** The transition as a whole *)

Lemma assigned_unique i wrap o1 o2 :
  grid_ok i ->
  assigned i wrap (height i) 0 o1 ->
  assigned i wrap (height i) 0 o2 ->
  o1 = o2.
Proof.
  intros Hok (Hw1 & Hh1 & Hlen1 & Hdone1) (Hw2 & Hh2 & Hlen2 & Hdone2).
  pose proof (width_pos i Hok) as Hw. pose proof (height_pos i Hok) as Hh.
  destruct o1 as [w1 h1 d1], o2 as [w2 h2 d2]. simpl in *. subst.
  f_equal. apply list_eq. intros j.
  destruct (decide (j < length d1)%nat) as [Hj | Hj].
  - pose proof (Z.mod_pos_bound (Z.of_nat j) (width i) Hw) as Hm.
    assert (0 <= Z.of_nat j / width i < height i) as Hq.
    { split; [apply Z.div_pos; lia |]. apply Z.div_lt_upper_bound; nia. }
    pose proof (Z.div_mod (Z.of_nat j) (width i)) as Hdm.
    specialize (Hdone1 _ _ Hm Hq). specialize (Hdone2 _ _ Hm Hq).
    replace (Z.to_nat (Z.of_nat j mod width i + Z.of_nat j / width i * width i))
      with j in * by lia.
    rewrite Hdone1, Hdone2 by lia. done.
  - rewrite !lookup_ge_None_2 by lia. done.
Qed.

(** X6. [next_generation] overwrites [out] completely: on two well-formed
    [out] grids of the dimensions of [in], whatever they held, it returns
    the same grid. *)
Theorem next_generation_overwrites (i out1 out2 : grid) (wrap : bool) :
  grid_ok i -> grid_ok out1 -> grid_ok out2 -> coords_fit i ->
  width i = width out1 -> height i = height out1 ->
  width i = width out2 -> height i = height out2 ->
  is_Some (next_generation i out1 wrap) /\
  next_generation i out1 wrap = next_generation i out2 wrap.
Proof.
  intros Hok Hok1 Hok2 Hfit Hw1 Hh1 Hw2 Hh2.
  destruct (next_generation_assigns i out1 wrap) as (o1 & Hr1 & Ha1); try done.
  destruct (next_generation_assigns i out2 wrap) as (o2 & Hr2 & Ha2); try done.
  rewrite Hr1, Hr2. split; [by eexists |].
  f_equal. by apply (assigned_unique i wrap).
Qed.

Lemma alive_all_dead w h x y : Spec.alive (all_dead w h) x y = false.
Proof.
  unfold Spec.alive, cell, all_dead. simpl.
  destruct (index _ x y) as [k |]; simpl; [| done].
  unfold load. destruct (k <? 0); [done |]. simpl.
  destruct (replicate _ false !! Z.to_nat k) as [c |] eqn:Hc; [| done].
  by apply lookup_replicate in Hc as [-> _].
Qed.

Lemma next_alive_all_dead w h wrap x y : next_alive (all_dead w h) wrap x y = false.
Proof.
  unfold next_alive, Spec.live_neighbours, Spec.offsets, Spec.contribution.
  simpl. rewrite !alive_all_dead.
  by repeat match goal with |- context [if ?c then _ else _] => destruct c end.
Qed.

Lemma all_dead_ok w h :
  0 < w -> 0 < h -> w * h <= Int.MAX -> grid_ok (all_dead w h).
Proof.
  intros Hw Hh Hfit. constructor; simpl; try done.
  rewrite length_replicate. nia.
Qed.

(** X7. The empty board is a fixed point under either topology: from a
    grid without live cells [next_generation] writes a grid without live
    cells into [out], whatever [out] held. *)
Theorem dead_grid_stays_dead (w h : Z) (out : grid) (wrap : bool) :
  0 < w -> 0 < h -> w * h <= Int.MAX ->
  2 * w <= Int.MAX -> 2 * h <= Int.MAX ->
  grid_ok out -> width out = w -> height out = h ->
  next_generation (all_dead w h) out wrap = Some (all_dead w h).
Proof.
  intros Hw Hh Hfit Hfw Hfh Hoko Hwo Hho.
  pose proof (all_dead_ok w h Hw Hh Hfit) as Hok.
  destruct (next_generation_assigns (all_dead w h) out wrap) as (o & -> & Ha);
    try done.
  f_equal. apply (assigned_unique (all_dead w h) wrap); try done.
  repeat split; simpl; try done.
  - rewrite length_replicate. nia.
  - intros x' y' Hx' Hy' _. rewrite next_alive_all_dead.
    apply lookup_replicate. split; [done |]. nia.
Qed.

Lemma live_neighbours_interior g x y :
  0 < x < width g - 1 -> 0 < y < height g - 1 ->
  Spec.live_neighbours g true x y = Spec.live_neighbours g false x y.
Proof.
  intros Hx Hy.
  unfold Spec.live_neighbours, Spec.offsets, Spec.contribution, Spec.inside. simpl.
  repeat match goal with
  | |- context [(?u mod ?m)] => rewrite (Z.mod_small u m) by lia
  end.
  repeat match goal with
  | |- context [if ?c then _ else _] =>
      let H := fresh in destruct c eqn:H; [| exfalso; lia]
  end.
  done.
Qed.

(** X8. The topology only matters on the border: for a cell that is not
    in the first or last column or row, [next_generation] writes the same
    state with [wrap] as without. *)
Theorem interior_ignores_wrap (i out : grid) (x y : Z) :
  grid_ok i -> grid_ok out -> coords_fit i ->
  width i = width out -> height i = height out ->
  0 < x < width i - 1 -> 0 < y < height i - 1 ->
  exists c,
    (next_generation i out true ≫= λ g, cell g x y) = Some c /\
    (next_generation i out false ≫= λ g, cell g x y) = Some c.
Proof.
  intros Hok Hoko Hfit Hw Hh Hx Hy.
  destruct (next_generation_assigns i out true) as (o1 & -> & Ha1); try done.
  destruct (next_generation_assigns i out false) as (o2 & -> & Ha2); try done.
  simpl.
  rewrite (assigned_cell i true o1), (assigned_cell i false o2) by (done || lia).
  exists (next_alive i true x y). split; [done |].
  unfold next_alive. by rewrite live_neighbours_interior.
Qed.

(** X9. [tick] on a well-formed game returns a well-formed game whose
    roles are exchanged: the old front grid is the new back grid,
    untouched, and the new front grid holds its next generation. *)
Theorem tick_keeps_previous (wrap : bool) (g : game_of_life) :
  game_ok g ->
  exists g', tick wrap g = Some g' /\ game_ok g' /\
    first (buffer g') = negb (first (buffer g)) /\
    back (buffer g') = front (buffer g) /\
    forall x y, 0 <= x < width (front (buffer g)) ->
                0 <= y < height (front (buffer g)) ->
      cell (front (buffer g')) x y
      = Some (Spec.rule (Spec.alive (front (buffer g)) x y)
                (Spec.live_neighbours (front (buffer g)) wrap x y)).
Proof.
  intros Hok.
  destruct (tick_advances wrap g Hok) as (g' & Hrun & Hok' & Hback & Hcells).
  exists g'. split; [done |]. split; [done |]. split; [| by split].
  unfold tick in Hrun.
  destruct (next_generation _ _ wrap) as [o |]; simpl in Hrun; [| done].
  injection Hrun as <-. simpl. unfold set_back. by destruct (first (buffer g)).
Qed.

(** ** Rendering *)

Lemma render_row gr y :
  grid_ok gr -> coords_fit gr ->
  0 <= y -> y + 1 < height gr ->
  exists row,
    for_ne (width gr)
      (λ x line,
         top ← cell gr x y;
         bottom ← cell gr x (Int.add y 1);
         Some (line ++ [glyph_of top bottom]))
      [] = Some row /\
    Z.of_nat (length row) = width gr /\
    forall x, 0 <= x < width gr ->
      row !! Z.to_nat x
      = Some (glyph_of (Spec.alive gr x y) (Spec.alive gr x (y + 1))).
Proof.
  intros Hok Hfit Hy0 Hy1.
  pose proof (width_pos gr Hok) as Hw.
  assert (2 * width gr <= Int.MAX /\ 2 * height gr <= Int.MAX) as [Hfw Hfh] by done.
  match goal with
  | |- context [for_ne ?n ?body ?s0] =>
      destruct (for_ne_invariant
        (λ k (line : list glyph),
           Z.of_nat (length line) = k /\
           forall x, 0 <= x < k ->
             line !! Z.to_nat x
             = Some (glyph_of (Spec.alive gr x y) (Spec.alive gr x (y + 1))))
        body n s0) as (row & Hrun & Hlen & Hrow); [lia | | |]
  end.
  - split; [done |]. intros; lia.
  - intros x line Hx [Hlen Hline].
    destruct (cell_inside gr x y Hok Hfit) as [-> _]; [lia | lia |].
    unfold Int.add. rewrite wrap_int_id by (unfold Int.MIN, Int.MAX in *; lia).
    destruct (cell_inside gr x (y + 1) Hok Hfit) as [-> _]; [lia | lia |].
    simpl. eexists. split; [done |]. split.
    + rewrite length_app. simpl. lia.
    + intros x' Hx'. destruct (decide (x' = x)) as [-> | Hne].
      * rewrite lookup_app_r by lia.
        replace (Z.to_nat x - length line)%nat with 0%nat by lia. done.
      * rewrite lookup_app_l by lia. apply Hline. lia.
  - by exists row.
Qed.

(** X10. [render] on a playable game returns [height / 2] rows of [width]
    glyphs; the glyph in row [r], column [x] is the one for the pair of
    cells [(x, 2r)] on top and [(x, 2r + 1)] below of the front grid:
    blank for none alive, upper half for the top one, lower half for the
    bottom one, full for both. *)
Theorem render_glyphs (g : game_of_life) :
  playable g ->
  exists rows, render g = Some rows /\
    Z.of_nat (length rows) = height (front (buffer g)) / 2 /\
    forall r x, 0 <= r < height (front (buffer g)) / 2 ->
                0 <= x < width (front (buffer g)) ->
      exists row, rows !! Z.to_nat r = Some row /\
        Z.of_nat (length row) = width (front (buffer g)) /\
        row !! Z.to_nat x
        = Some (glyph_of (Spec.alive (front (buffer g)) x (2 * r))
                         (Spec.alive (front (buffer g)) x (2 * r + 1))).
Proof.
  intros [[Hf _ _ _ Hfit] Hev]. unfold render.
  set (gr := front (buffer g)) in *.
  pose proof (height_pos gr Hf) as Hh.
  apply Z.even_spec in Hev as [half Hhalf].
  assert (height gr / 2 = half) as Hdiv
    by (rewrite Hhalf, (Z.mul_comm 2 half), Z.div_mul; lia).
  unfold Int.rem. simpl.
  replace (Z.rem (height gr) 2) with 0
    by (rewrite Z.rem_mod_nonneg by lia; rewrite Hhalf, Z.mul_comm, Z_mod_mult; done).
  simpl. unfold for_ne_by2.
  destruct (Z.ltb_spec (height gr) 0); [lia |].
  replace (Z.even (height gr)) with true
    by (symmetry; apply Z.even_spec; by exists half).
  simpl. rewrite Hdiv.
  match goal with
  | |- context [iterate ?n 0 2 ?body ?s0] =>
      destruct (iterate_invariant
        (λ c (rows : list (list glyph)),
           Z.of_nat (length rows) * 2 = c /\
           forall r x, 0 <= r -> r * 2 < c -> 0 <= x < width gr ->
             exists row, rows !! Z.to_nat r = Some row /\
               Z.of_nat (length row) = width gr /\
               row !! Z.to_nat x
               = Some (glyph_of (Spec.alive gr x (2 * r))
                                (Spec.alive gr x (2 * r + 1))))
        2 body n 0 s0) as (rows & Hrun & Hlen & Hrows)
  end.
  - split; [done |]. intros; lia.
  - intros k rows Hk [Hlen Hrows].
    destruct (render_row gr (0 + Z.of_nat k * 2) Hf Hfit) as (row & -> & Hrl & Hrow);
      [lia | lia |].
    simpl. eexists. split; [done |]. split.
    + rewrite length_app. simpl. lia.
    + intros r x Hr0 Hr Hx.
      destruct (decide (r = Z.of_nat k)) as [-> | Hne].
      * exists row. rewrite lookup_app_r by lia.
        replace (Z.to_nat (Z.of_nat k) - length rows)%nat with 0%nat by lia.
        split; [done |]. split; [done |].
        rewrite (Hrow x Hx). do 2 f_equal; f_equal; lia.
      * destruct (Hrows r x) as (row' & Hl & Hrest); [lia | lia | done |].
        exists row'. split; [| done]. rewrite lookup_app_l; [done |].
        apply lookup_lt_Some in Hl. done.
  - exists rows. split; [done |]. split; [lia |].
    intros r x Hr Hx. apply Hrows; lia.
Qed.

(** ** Construction of the game *)

Section WholeConstruction.
Context {E : RandomEngine}.

(** X11. For positive dimensions within what [int] arithmetic holds, the
    constructor of [game_of_life] returns a game whose front grid is
    written in full: cell number [k] holds whether draw number [k] from
    [0..frequency] of the engine seeded with the clock is 0, so nothing of
    the storage the grid was allocated on shows.  The back grid is the
    other allocation, as found. *)
Theorem game_of_life_new_cells (w h seed : Z) (sa sb : nat -> bool) :
  0 < w -> 0 < h -> w * h <= Int.MAX -> 2 * w <= Int.MAX -> 2 * h <= Int.MAX ->
  exists g, game_of_life_new w h seed sa sb = Some g /\
    first (buffer g) = false /\
    width (front (buffer g)) = w /\ height (front (buffer g)) = h /\
    data (front (buffer g)) = map (initial_cell seed) (seq 0 (Z.to_nat (w * h))) /\
    data (back (buffer g)) = map sa (seq 0 (Z.to_nat (w * h))).
Proof.
  intros Hw Hh Hfit Hfw Hfh.
  destruct (game_of_life_new_front w h seed sa sb Hw Hh Hfit Hfw Hfh)
    as (g & Hnew & Hfirst & Hwidth & Hheight & Hfront & Hback).
  exists g. split; [exact Hnew |]. split; [exact Hfirst |].
  split; [exact Hwidth |]. split; [exact Hheight |]. by split.
Qed.

(** X12. Whatever the terminal and the environment give, a game that
    [new_game] returns has grids of one height, and that height is even:
    the evenness [render] asserts holds for every game [new_game] builds. *)
Theorem new_game_height_even (e : environment) (seed : Z)
    (sa sb : nat -> bool) (g : game_of_life) :
  new_game e seed sa sb = Some g ->
  Z.even (height (front (buffer g))) = true /\
  height (back (buffer g)) = height (front (buffer g)) /\
  Int.rem (height (front (buffer g))) 2 = Some 0.
Proof.
  unfold new_game, new_game_size. intros Hnew.
  destruct (override (GOL_WIDTH e) (columns e)) as [w |]; simpl in Hnew; [| done].
  destruct (override (GOL_HEIGHT e) (lines e)) as [h0 |]; simpl in Hnew; [| done].
  set (h := Int.mul h0 2) in *.
  assert (exists m, h = 2 * m) as [m Hm].
  { unfold h, Int.mul, Int.wrap_int.
    exists ((h0 + 1073741824) mod 2147483648 - 1073741824).
    replace (h0 * 2 + 2147483648) with (2 * (h0 + 1073741824)) by lia.
    replace 4294967296 with (2 * 2147483648) by lia.
    rewrite Z.mul_mod_distr_l by lia. lia. }
  assert (height (front (buffer g)) = h /\ height (back (buffer g)) = h) as [Hf Hb].
  { unfold game_of_life_new, double_buffered_grid_new in Hnew.
    unfold grid_new in Hnew.
    destruct (Int.mul w h <? 0); simpl in Hnew; [done |].
    match type of Hnew with
    | context [for_ne ?n ?body ?s0] =>
        destruct (for_ne n body s0) as [[e1 g1] |] eqn:Hloop; simpl in Hnew; [| done]
    end.
    injection Hnew as <-. unfold front, back, swap, set_back. simpl.
    split; [| done].
    unfold for_ne in Hloop. destruct (Int.mul w h <? 0); [done |].
    apply (iterate_preserves (λ s : engine * grid, height (s.2) = h)) in Hloop;
      [done | done |].
    intros k [e0 g0] [e2 g2] Hh0 Hbody. simpl in *.
    destruct (Int.rem k w) as [x |]; simpl in Hbody; [| done].
    destruct (Int.quot k w) as [y |]; simpl in Hbody; [| done].
    unfold set_cell in Hbody.
    destruct (index g0 x y) as [ix |]; simpl in Hbody; [| done].
    destruct (store (data g0) ix _) as [d |]; simpl in Hbody; [| done].
    injection Hbody as _ <-. done. }
  rewrite Hf, Hb. split; [apply Z.even_spec; by exists m |]. split; [done |].
  unfold Int.rem. simpl. f_equal. rewrite Hm, Z.mul_comm. apply Z.rem_mul. lia.
Qed.

End WholeConstruction.

(** ** A session as a whole *)

Lemma last_timeout_app cs1 cs2 t :
  last_timeout (cs1 ++ cs2) t = last_timeout cs2 (last_timeout cs1 t).
Proof.
  revert t. induction cs1 as [| c cs1 IH]; intros t; simpl; [done |].
  destruct c; apply IH.
Qed.

Lemma iteration_last_timeout key rs c :
  last_timeout (iteration key rs c).1.2 (tick_ms c)
  = tick_ms (iteration key rs c).1.1.
Proof.
  unfold iteration. cbv zeta. cbn [fst snd tick_ms].
  rewrite !last_timeout_app.
  destruct ((key =? KEY_RESIZE) || (key =? chr "r")); cbn [last_timeout];
    destruct ((key =? chr "-") && (tick_ms c <? max_tick_ms)); cbn [last_timeout];
    match goal with
    | |- context [if ?b then [SetTimeout _] else []] => destruct b
    end; cbn [last_timeout];
    repeat match goal with
    | |- context [if ?b then _ :: _ else []] => destruct b
    end; reflexivity.
Qed.

Lemma stale_after_app cs1 cs2 stale :
  stale_after (cs1 ++ cs2) stale = stale_after cs2 (stale_after cs1 stale).
Proof.
  revert stale. induction cs1 as [| c cs1 IH]; intros stale; simpl; [done |].
  destruct c; apply IH.
Qed.

Lemma iteration_not_stale key rs c :
  stale_after (iteration key rs c).1.2 false = false.
Proof.
  unfold iteration. cbv zeta. cbn [fst snd].
  rewrite !stale_after_app.
  repeat match goal with
  | |- context [if ?b then _ :: _ else []] => destruct b
  end; reflexivity.
Qed.

Section Session.
Context {E : RandomEngine}.

Lemma perform_all_timeout i cs (w w' : world) :
  perform_all i cs w = Some w' ->
  timeout_ms w' = last_timeout cs (timeout_ms w).
Proof.
  revert w. induction cs as [| c cs IH]; intros w Hrun; simpl in Hrun.
  - by injection Hrun as <-.
  - destruct (perform i c w) as [w1 |] eqn:Hc; simpl in Hrun; [| done].
    rewrite (IH w1 Hrun).
    destruct c; simpl in *;
      repeat match type of Hc with
      | context [?o ≫= _] => destruct o; simpl in Hc; [| done]
      end; by injection Hc as <-.
Qed.

Lemma perform_all_stale i cs (w w' : world) stale :
  perform_all i cs w = Some w' ->
  (stale = false -> render (game w) = Some (screen w)) ->
  stale_after cs stale = false ->
  render (game w') = Some (screen w').
Proof.
  revert w stale. induction cs as [| c cs IH]; intros w stale Hrun Hs Hfresh;
    simpl in *.
  - injection Hrun as <-. by apply Hs.
  - destruct (perform i c w) as [w1 |] eqn:Hc; simpl in Hrun; [| done].
    destruct c; simpl in Hc;
      try (apply (IH w1 true Hrun); [done | exact Hfresh]).
    + destruct (render (game w)) as [sc |] eqn:Hr; simpl in Hc; [| done].
      injection Hc as <-. apply (IH _ false Hrun); [done | exact Hfresh].
    + injection Hc as <-. apply (IH _ stale Hrun); [done | exact Hfresh].
Qed.

(** [main] builds the first game, renders it and runs the loop. *)
Lemma session_runs (i : input) (inputs : list input) :
  env_ok (env i) ->
  Forall (λ j, env_ok (env j)) inputs ->
  exists w w', main_start i = Some w /\
    main_loop inputs w = Some w' /\ playable (game w').
Proof.
  intros Henv Henvs. unfold main_start.
  destruct (new_game_playable (env i) (clock i) (storage_a i) (storage_b i) Henv)
    as (g & -> & Hg). simpl.
  destruct (render_total g Hg) as [sc ->]. simpl.
  eexists.
  destruct (main_loop_total inputs
              (World initial_control default_random_engine g sc min_tick_ms)
              Henvs Hg) as (w' & Hrun & Hplay).
  exists w'. by split.
Qed.

(** X13. A session never goes wrong: when the environment that each call
    of [new_game] reads gives a width and a height of at least 1 within
    what [int] arithmetic holds, [main] builds and renders the first game
    and runs the loop over any keys without an access outside an array, a
    failed [assert] or a division by zero, and the game stays playable. *)
Theorem session_never_fails (i : input) (inputs : list input) :
  env_ok (env i) ->
  Forall (λ j, env_ok (env j)) inputs ->
  exists w w', main_start i = Some w /\
    main_loop inputs w = Some w' /\ playable (game w').
Proof. intros Henv Henvs. by apply session_runs. Qed.

Lemma main_loop_timeout inputs (w w' : world) :
  timeout_ms w = tick_ms (ctl w) ->
  main_loop inputs w = Some w' ->
  timeout_ms w' = tick_ms (ctl w').
Proof.
  revert w. induction inputs as [| i rest IH]; intros w Ht Hrun; simpl in Hrun.
  - by injection Hrun as <-.
  - destruct (main_iteration i w) as [[w1 stop] |] eqn:Hit; simpl in Hrun; [| done].
    assert (timeout_ms w1 = tick_ms (ctl w1)) as Ht1.
    { unfold main_iteration in Hit.
      destruct (perform_all i _ w) as [w2 |] eqn:Hall; simpl in Hit; [| done].
      injection Hit as <- _. simpl.
      rewrite (perform_all_timeout _ _ _ _ Hall), Ht.
      apply iteration_last_timeout. }
    destruct stop; [by injection Hrun as <- | by apply (IH w1)].
Qed.

(** X14. Throughout a session the input-wait timeout given to the terminal
    is the current [tick_ms], and it lies within 8 .. 1024. *)
Theorem timeout_follows_tick (i : input) (inputs : list input) (w w' : world) :
  main_start i = Some w ->
  main_loop inputs w = Some w' ->
  timeout_ms w' = tick_ms (ctl w') /\
  min_tick_ms <= timeout_ms w' <= max_tick_ms.
Proof.
  intros Hstart Hrun.
  assert (ctl w = initial_control /\ timeout_ms w = min_tick_ms) as [Hc Ht].
  { unfold main_start in Hstart.
    destruct (new_game _ _ _ _) as [g |]; simpl in Hstart; [| done].
    destruct (render g) as [sc |]; simpl in Hstart; [| done].
    by injection Hstart as <-. }
  assert (timeout_ms w' = tick_ms (ctl w')) as Heq.
  { apply (main_loop_timeout inputs w); [by rewrite Hc, Ht | done]. }
  split; [done |]. rewrite Heq.
  assert (tick_reachable (tick_ms (ctl w'))) as Hreach.
  { apply (main_loop_tick inputs w); [| done]. rewrite Hc. vm_compute. tauto. }
  unfold tick_reachable in Hreach. unfold min_tick_ms, max_tick_ms.
  repeat (destruct Hreach as [<- | Hreach]; [lia |]). destruct Hreach.
Qed.

Lemma main_loop_screen inputs (w w' : world) :
  render (game w) = Some (screen w) ->
  main_loop inputs w = Some w' ->
  render (game w') = Some (screen w').
Proof.
  revert w. induction inputs as [| i rest IH]; intros w Hs Hrun; simpl in Hrun.
  - by injection Hrun as <-.
  - destruct (main_iteration i w) as [[w1 stop] |] eqn:Hit; simpl in Hrun; [| done].
    assert (render (game w1) = Some (screen w1)) as Hs1.
    { unfold main_iteration in Hit.
      destruct (perform_all i _ w) as [w2 |] eqn:Hall; simpl in Hit; [| done].
      injection Hit as <- _. simpl.
      apply (perform_all_stale _ _ _ _ false Hall); [done |].
      apply iteration_not_stale. }
    destruct stop; [by injection Hrun as <- | by apply (IH w1)].
Qed.

(** X15. After every pass of the loop the screen shows the current front
    grid: what the terminal was last given is the rendering of the game as
    it stands, whatever keys and perturbations came. *)
Theorem screen_shows_front (i : input) (inputs : list input) (w w' : world) :
  main_start i = Some w ->
  main_loop inputs w = Some w' ->
  render (game w') = Some (screen w').
Proof.
  intros Hstart Hrun.
  apply (main_loop_screen inputs w); [| done].
  unfold main_start in Hstart.
  destruct (new_game _ _ _ _) as [g |]; simpl in Hstart; [| done].
  destruct (render g) as [sc |] eqn:Hr; simpl in Hstart; [| done].
  by injection Hstart as <-.
Qed.

(** X16. While paused, a pass whose key is none of resize, ['r'], ['p'],
    space, ['b'], ['i'], ['t'], ['s'] returns and leaves the game and the
    screen as they are, and the loop stays paused. *)
Theorem paused_pass_idle (i : input) (w : world) :
  running (ctl w) = false ->
  ~ In (key i) [KEY_RESIZE; chr "r"; chr "p"; chr " ";
                chr "b"; chr "i"; chr "t"; chr "s"] ->
  exists w' stop, main_iteration i w = Some (w', stop) /\
    game w' = game w /\ screen w' = screen w /\
    running (ctl w') = false /\ wrap (ctl w') = (if key i =? chr "w"
                                                 then negb (wrap (ctl w))
                                                 else wrap (ctl w)).
Proof.
  intros Hrun Hkey.
  assert (forall k, In k [KEY_RESIZE; chr "r"; chr "p"; chr " ";
                          chr "b"; chr "i"; chr "t"; chr "s"] ->
                    (key i =? k) = false) as Hne.
  { intros k Hk. apply Z.eqb_neq. intros Heq. apply Hkey. by rewrite Heq. }
  unfold main_iteration, iteration. cbv zeta. cbn [fst snd].
  rewrite Hrun.
  rewrite (Hne KEY_RESIZE), (Hne (chr "r")), (Hne (chr "p")), (Hne (chr " ")),
    (Hne (chr "b")), (Hne (chr "i")), (Hne (chr "t")), (Hne (chr "s"))
    by (simpl; auto 12).
  simpl.
  destruct ((key i =? chr "-") && (tick_ms (ctl w) <? max_tick_ms)); simpl;
    match goal with
    | |- context [if ?b then [SetTimeout _] else []] => destruct b
    end; simpl; eexists; eexists; (split; [reflexivity |]); simpl; done.
Qed.

End Session.

(** X17. The number of generation transitions of a pass, from the state
    the pass starts in.  It is at most two.  With a key other than ['p']
    and space: while running it is two when the key is ['b'] or the draw
    is 0 and one otherwise; while paused it is one when the key is ['b']
    or ['s'] and none otherwise.  With ['p'] or space the pause flag flips
    first: a running loop makes none, a paused loop makes two when the
    draw is 0 and one otherwise. *)
Theorem ticks_per_pass (key rs : Z) (c : control) :
  let calls := (iteration key rs c).1.2 in
  let pause_key := (key =? chr "p") || (key =? chr " ") in
  (ticks calls <= 2)%nat /\
  ticks calls
  = if pause_key then
      if running c then 0%nat
      else if rs =? 0 then 2%nat else 1%nat
    else
      if running c then
        if (key =? chr "b") || (rs =? 0) then 2%nat else 1%nat
      else
        if (key =? chr "b") || (key =? chr "s") then 1%nat else 0%nat.
Proof.
  assert (forall cs1 cs2, ticks (cs1 ++ cs2) = (ticks cs1 + ticks cs2)%nat) as Happ.
  { intros cs1 cs2. induction cs1 as [| [] cs1 IH]; simpl; lia. }
  assert (forall (b : bool) cs, ticks (if b then cs else []) = if b then ticks cs else 0%nat)
    as Hif by (intros [] cs; reflexivity).
  cbv zeta.
  destruct (Z.eqb_spec key (chr "p")) as [-> | Hp].
  { unfold iteration. cbv zeta. cbn [fst snd]. rewrite !Happ. simpl.
    destruct (running c), (rs =? 0), (rs =? 1), (rs =? 2); simpl; lia. }
  destruct (Z.eqb_spec key (chr " ")) as [-> | Hsp].
  { unfold iteration. cbv zeta. cbn [fst snd]. rewrite !Happ. simpl.
    destruct (running c), (rs =? 0), (rs =? 1), (rs =? 2); simpl; lia. }
  destruct (Z.eqb_spec key (chr "b")) as [-> | Hb].
  { unfold iteration. cbv zeta. cbn [fst snd]. rewrite !Happ. simpl.
    destruct (running c), (rs =? 0), (rs =? 1), (rs =? 2); simpl; lia. }
  apply Z.eqb_neq in Hp, Hsp, Hb.
  unfold iteration. cbv zeta. cbn [fst snd]. rewrite !Happ, !Hif, Hp, Hsp, Hb.
  cbn [orb ticks].
  destruct (running c), (key =? chr "s"), (rs =? 0); cbn [orb andb];
    repeat match goal with
    | |- context [if ?b then _ else _] => destruct b
    end; simpl; lia.
Qed.

(** X18. Speed changes undo each other: from a reachable tick interval
    below the maximum, ['-'] doubles it and a following ['+'] brings it
    back; at the maximum ['-'] changes nothing, and at the minimum ['+']
    changes nothing. *)
Theorem slower_then_faster (rs1 rs2 : Z) (c : control) :
  tick_reachable (tick_ms c) ->
  let slower := (iteration (chr "-") rs1 c).1.1 in
  let back_again := (iteration (chr "+") rs2 slower).1.1 in
  (tick_ms c < max_tick_ms ->
     tick_ms slower = 2 * tick_ms c /\ tick_ms back_again = tick_ms c) /\
  (tick_ms c = max_tick_ms -> tick_ms slower = max_tick_ms) /\
  (tick_ms c = min_tick_ms ->
     tick_ms (iteration (chr "+") rs1 c).1.1 = min_tick_ms).
Proof.
  intros Hreach. destruct c as [t run wr]. simpl in Hreach.
  unfold tick_reachable in Hreach.
  repeat (destruct Hreach as [<- | Hreach];
          [vm_compute; repeat split; intros; (reflexivity || discriminate) |]).
  destruct Hreach.
Qed.

(** * Further concrete runs *)

Lemma square_block_fits : grid_ok square_block /\ coords_fit square_block.
Proof. split; [grid_is_ok | split; evaluate]. Defined.

Lemma square_game_playable : playable square_game.
Proof.
  split; [constructor; try reflexivity; try grid_is_ok; split; evaluate
         | reflexivity].
Defined.

Lemma small_env_ok : env_ok small_env.
Proof.
  exists 4, 2. split; [reflexivity |]. split; [reflexivity |].
  repeat split; evaluate.
Defined.

Lemma invert_complements_witness :
  grid_ok square_block /\
  exists g', invert square_block = Some g' /\
    width g' = width square_block /\ height g' = height square_block /\
    data g' = map negb (data square_block) /\
    (live_count g' + live_count square_block = length (data square_block))%nat /\
    invert g' = Some square_block.
Proof.
  destruct square_block_fits as [H1 _].
  split; [assumption |]. apply (invert_complements square_block H1).
Defined.

Lemma big_bang_non_decreasing_witness :
  grid_ok square_block /\
  exists g', @big_bang lcg_engine square_block = Some g' /\
    width g' = width square_block /\ height g' = height square_block /\
    length (data g') = length (data square_block) /\
    (live_count square_block <= live_count g')%nat.
Proof.
  destruct square_block_fits as [H1 _].
  split; [assumption |]. apply (@big_bang_non_decreasing lcg_engine square_block H1).
Defined.

Lemma perturbation_fixed_points_witness :
  grid_ok (all_dead 3 3) /\
  @thanos lcg_engine (all_dead 3 3) = Some (all_dead 3 3) /\
  grid_ok (all_alive 3 3) /\
  @big_bang lcg_engine (all_alive 3 3) = Some (all_alive 3 3).
Proof.
  assert (grid_ok (all_dead 3 3)) as H1 by grid_is_ok.
  assert (grid_ok (all_alive 3 3)) as H2 by grid_is_ok.
  split; [assumption |]. split.
  - apply (proj1 (@perturbation_fixed_points lcg_engine (all_dead 3 3) H1)).
    intros j c Hc. apply lookup_replicate in Hc. tauto.
  - split; [assumption |].
    apply (proj2 (@perturbation_fixed_points lcg_engine (all_alive 3 3) H2)).
    intros j c Hc. apply lookup_replicate in Hc. tauto.
Defined.

Lemma set_cell_then_cell_witness :
  grid_ok square_block /\ coords_fit square_block /\
  0 <= 1 < width square_block /\ 0 <= 2 < height square_block /\
  exists g', set_cell square_block 1 2 false = Some g' /\
    grid_ok g' /\ width g' = width square_block /\
    height g' = height square_block /\
    cell g' 1 2 = Some false /\
    forall x' y', 0 <= x' < width square_block -> 0 <= y' < height square_block ->
      (x', y') <> (1, 2) -> cell g' x' y' = cell square_block x' y'.
Proof.
  destruct square_block_fits as [H1 H2].
  assert (0 <= 1 < width square_block) as H3 by evaluate.
  assert (0 <= 2 < height square_block) as H4 by evaluate.
  repeat (split; [assumption |]).
  apply (set_cell_then_cell square_block 1 2 false H1 H2 H3 H4).
Defined.

Lemma cell_torus_witness :
  grid_ok square_block /\ coords_fit square_block /\
  0 <= 1 < width square_block /\ 0 <= 2 < height square_block /\
  cell square_block (-1) 2 = cell square_block (width square_block - 1) 2 /\
  cell square_block (width square_block) 2 = cell square_block 0 2 /\
  cell square_block 1 (-1) = cell square_block 1 (height square_block - 1) /\
  cell square_block 1 (height square_block) = cell square_block 1 0 /\
  cell square_block (1 - width square_block) (2 - height square_block)
  = cell square_block 1 2.
Proof.
  destruct square_block_fits as [H1 H2].
  assert (0 <= 1 < width square_block) as H3 by evaluate.
  assert (0 <= 2 < height square_block) as H4 by evaluate.
  repeat (split; [assumption |]).
  apply (cell_torus square_block 1 2 H1 H2 H3 H4).
Defined.

Lemma next_generation_overwrites_witness :
  grid_ok blinker /\ grid_ok (all_dead 5 5) /\ grid_ok (all_alive 5 5) /\
  coords_fit blinker /\
  is_Some (next_generation blinker (all_dead 5 5) true) /\
  next_generation blinker (all_dead 5 5) true
  = next_generation blinker (all_alive 5 5) true.
Proof.
  assert (grid_ok blinker) as H1 by grid_is_ok.
  assert (grid_ok (all_dead 5 5)) as H2 by grid_is_ok.
  assert (grid_ok (all_alive 5 5)) as H3 by grid_is_ok.
  assert (coords_fit blinker) as H4 by (split; evaluate).
  repeat (split; [assumption |]).
  apply (next_generation_overwrites blinker (all_dead 5 5) (all_alive 5 5) true
           H1 H2 H3 H4 eq_refl eq_refl eq_refl eq_refl).
Defined.

Lemma dead_grid_stays_dead_witness :
  0 < 3 /\ 3 * 3 <= Int.MAX /\ 2 * 3 <= Int.MAX /\ grid_ok edge_pair /\
  next_generation (all_dead 3 3) edge_pair false = Some (all_dead 3 3).
Proof.
  assert (0 < 3) as H1 by evaluate.
  assert (3 * 3 <= Int.MAX) as H2 by evaluate.
  assert (2 * 3 <= Int.MAX) as H3 by evaluate.
  assert (grid_ok edge_pair) as H4 by grid_is_ok.
  repeat (split; [assumption |]).
  apply (dead_grid_stays_dead 3 3 edge_pair false H1 H1 H2 H3 H3 H4 eq_refl eq_refl).
Defined.

Lemma interior_ignores_wrap_witness :
  grid_ok blinker /\ grid_ok (all_dead 5 5) /\ coords_fit blinker /\
  0 < 2 < width blinker - 1 /\ 0 < 2 < height blinker - 1 /\
  exists c,
    (next_generation blinker (all_dead 5 5) true ≫= λ g, cell g 2 2) = Some c /\
    (next_generation blinker (all_dead 5 5) false ≫= λ g, cell g 2 2) = Some c.
Proof.
  assert (grid_ok blinker) as H1 by grid_is_ok.
  assert (grid_ok (all_dead 5 5)) as H2 by grid_is_ok.
  assert (coords_fit blinker) as H3 by (split; evaluate).
  assert (0 < 2 < width blinker - 1) as H4 by evaluate.
  assert (0 < 2 < height blinker - 1) as H5 by evaluate.
  repeat (split; [assumption |]).
  apply (interior_ignores_wrap blinker (all_dead 5 5) 2 2
           H1 H2 H3 eq_refl eq_refl H4 H5).
Defined.

Lemma tick_keeps_previous_witness :
  game_ok square_game /\
  exists g', tick true square_game = Some g' /\ game_ok g' /\
    first (buffer g') = negb (first (buffer square_game)) /\
    back (buffer g') = front (buffer square_game) /\
    forall x y, 0 <= x < width (front (buffer square_game)) ->
                0 <= y < height (front (buffer square_game)) ->
      cell (front (buffer g')) x y
      = Some (Spec.rule (Spec.alive (front (buffer square_game)) x y)
                (Spec.live_neighbours (front (buffer square_game)) true x y)).
Proof.
  destruct square_game_playable as [H1 _].
  split; [assumption |]. apply (tick_keeps_previous true square_game H1).
Defined.

Lemma render_glyphs_witness :
  playable square_game /\
  exists rows, render square_game = Some rows /\
    Z.of_nat (length rows) = height (front (buffer square_game)) / 2 /\
    forall r x, 0 <= r < height (front (buffer square_game)) / 2 ->
                0 <= x < width (front (buffer square_game)) ->
      exists row, rows !! Z.to_nat r = Some row /\
        Z.of_nat (length row) = width (front (buffer square_game)) /\
        row !! Z.to_nat x
        = Some (glyph_of (Spec.alive (front (buffer square_game)) x (2 * r))
                         (Spec.alive (front (buffer square_game)) x (2 * r + 1))).
Proof.
  pose proof square_game_playable as H1.
  split; [assumption |]. apply (render_glyphs square_game H1).
Defined.

Lemma game_of_life_new_cells_witness :
  0 < 4 /\ 4 * 4 <= Int.MAX /\ 2 * 4 <= Int.MAX /\
  exists g, @game_of_life_new lcg_engine 4 4 0 dirty_storage clean_storage = Some g /\
    first (buffer g) = false /\
    width (front (buffer g)) = 4 /\ height (front (buffer g)) = 4 /\
    data (front (buffer g))
    = map (@initial_cell lcg_engine 0) (seq 0 (Z.to_nat (4 * 4))) /\
    data (back (buffer g)) = map dirty_storage (seq 0 (Z.to_nat (4 * 4))).
Proof.
  assert (0 < 4) as H1 by evaluate.
  assert (4 * 4 <= Int.MAX) as H2 by evaluate.
  assert (2 * 4 <= Int.MAX) as H3 by evaluate.
  repeat (split; [assumption |]).
  apply (@game_of_life_new_cells lcg_engine 4 4 0 dirty_storage clean_storage
           H1 H1 H2 H3 H3).
Defined.

Lemma new_game_height_even_witness :
  @new_game lcg_engine zero_width_env 0 clean_storage clean_storage
  = Some (Game (DoubleBuffer false (Grid 0 48 []) (Grid 0 48 []))) /\
  Z.even (height (front (DoubleBuffer false (Grid 0 48 []) (Grid 0 48 [])))) = true /\
  height (back (DoubleBuffer false (Grid 0 48 []) (Grid 0 48 [])))
  = height (front (DoubleBuffer false (Grid 0 48 []) (Grid 0 48 []))) /\
  Int.rem (height (front (DoubleBuffer false (Grid 0 48 []) (Grid 0 48 [])))) 2
  = Some 0.
Proof.
  assert (@new_game lcg_engine zero_width_env 0 clean_storage clean_storage
          = Some (Game (DoubleBuffer false (Grid 0 48 []) (Grid 0 48 [])))) as H1
    by reflexivity.
  split; [assumption |].
  apply (@new_game_height_even lcg_engine zero_width_env 0 clean_storage
           clean_storage _ H1).
Defined.

Lemma session_never_fails_witness :
  env_ok (env no_key_input) /\
  Forall (λ j, env_ok (env j)) short_session /\
  exists w w', @main_start lcg_engine no_key_input = Some w /\
    main_loop short_session w = Some w' /\ playable (game w').
Proof.
  pose proof small_env_ok as H1.
  assert (Forall (λ j, env_ok (env j)) short_session) as H2
    by (repeat constructor; exact small_env_ok).
  split; [assumption |]. split; [assumption |].
  apply (@session_never_fails lcg_engine no_key_input short_session H1 H2).
Defined.

Lemma timeout_follows_tick_witness :
  exists w w', @main_start lcg_engine no_key_input = Some w /\
    main_loop short_session w = Some w' /\
    timeout_ms w' = tick_ms (ctl w') /\
    min_tick_ms <= timeout_ms w' <= max_tick_ms.
Proof.
  assert (Forall (λ j, env_ok (env j)) short_session) as Henvs
    by (repeat constructor; exact small_env_ok).
  destruct (@session_runs lcg_engine no_key_input short_session small_env_ok Henvs)
    as (w & w' & H1 & H2 & _).
  exists w, w'. split; [exact H1 |]. split; [exact H2 |].
  exact (@timeout_follows_tick lcg_engine no_key_input short_session w w' H1 H2).
Defined.

Lemma screen_shows_front_witness :
  exists w w', @main_start lcg_engine no_key_input = Some w /\
    main_loop short_session w = Some w' /\
    render (game w') = Some (screen w').
Proof.
  assert (Forall (λ j, env_ok (env j)) short_session) as Henvs
    by (repeat constructor; exact small_env_ok).
  destruct (@session_runs lcg_engine no_key_input short_session small_env_ok Henvs)
    as (w & w' & H1 & H2 & _).
  exists w, w'. split; [exact H1 |]. split; [exact H2 |].
  exact (@screen_shows_front lcg_engine no_key_input short_session w w' H1 H2).
Defined.

Lemma paused_pass_idle_witness :
  running (ctl paused_world) = false /\
  ~ In (key other_input) [KEY_RESIZE; chr "r"; chr "p"; chr " ";
                          chr "b"; chr "i"; chr "t"; chr "s"] /\
  exists w' stop, @main_iteration lcg_engine other_input paused_world = Some (w', stop) /\
    game w' = game paused_world /\ screen w' = screen paused_world /\
    running (ctl w') = false /\
    wrap (ctl w') = (if key other_input =? chr "w"
                     then negb (wrap (ctl paused_world))
                     else wrap (ctl paused_world)).
Proof.
  assert (running (ctl paused_world) = false) as H1 by reflexivity.
  assert (~ In (key other_input) [KEY_RESIZE; chr "r"; chr "p"; chr " ";
                                  chr "b"; chr "i"; chr "t"; chr "s"]) as H2.
  { simpl. intros H. repeat (destruct H as [H | H]; [discriminate H |]). exact H. }
  split; [assumption |]. split; [assumption |].
  apply (@paused_pass_idle lcg_engine other_input paused_world H1 H2).
Defined.

Lemma slower_then_faster_witness :
  tick_reachable (tick_ms initial_control) /\
  tick_ms (iteration (chr "-") 5 initial_control).1.1 = 2 * tick_ms initial_control /\
  tick_ms (iteration (chr "+") 7 (iteration (chr "-") 5 initial_control).1.1).1.1
  = tick_ms initial_control.
Proof.
  assert (tick_reachable (tick_ms initial_control)) as H1 by (left; reflexivity).
  split; [assumption |].
  apply (proj1 (slower_then_faster 5 7 initial_control H1)).
  reflexivity.
Defined.
